(** * zendb: the table query builder, its SQL lowering and its result shaper

    A shallow embedding of [src/DatabaseTableQuery.ts].  JavaScript values,
    thrown errors and the mutable caches of the query object are made
    explicit: a thrown [Error] is the [Throw] branch of [outcome], the object
    caches live in a heap of query objects, and the helpers of [./Utils],
    [./schema] and [zensqlite] that the file imports are the fields of the
    class [Externals] (or small definitions where the source states what
    they do).  The emitter of externals and of common table expressions and
    the JSON shaper, which src/ knows through tests only, follow the
    specification. *)

From Stdlib Require Import Ascii String List ZArith Bool Lia Decimal DecimalString DecimalNat.
From stdpp Require Import base option list gmap strings.

Import ListNotations.
Local Open Scope string_scope.
Local Open Scope list_scope.
Set Warnings "-register-all".

(** ** JavaScript values *)

(** Values that flow through the result builder.  Objects keep their
    insertion order, as [Record<string, any>] does. *)
Inductive value : Type :=
| VUndefined
| VNull
| VBool (b : bool)
| VNum (z : Z)
| VStr (s : string)
| VArr (items : list value)
| VObj (fields : list (string * value)).

(** [a ?? b]: the right operand replaces [undefined] and [null] only. *)
Definition nullish (a b : value) : value :=
  match a with
  | VUndefined | VNull => b
  | _ => a
  end.

(** [results[i]]: reading past the end of an array is [undefined]. *)
Definition index (results : list value) (i : nat) : value :=
  match results !! i with
  | Some v => v
  | None => VUndefined
  end.

(** ** Thrown errors *)

Inductive error : Type :=
| TableNotFound (table : string)
| ColumnNotFound (column table : string)
| NoResultSingleJoin
| MultipleResultsSingleJoin
| Expected1 (got : nat)
| ExpectedMaybe1 (got : nat)
| ExpectedAtLeast1
| TypeErrorUndefined
| ParseError (column : string).

Inductive outcome (A : Type) : Type :=
| Return (a : A)
| Throw (e : error).
Arguments Return {A} a.
Arguments Throw {A} e.

Definition obind {A B} (m : outcome A) (k : A -> outcome B) : outcome B :=
  match m with
  | Return a => k a
  | Throw e => Throw e
  end.

Notation "'try' x <~ m 'in' k" := (obind m (fun x => k))
  (at level 10, x name, m at level 100, k at level 200, only parsing).

Definition raises {A} (m : outcome A) : Prop :=
  match m with Throw _ => True | Return _ => False end.

(** [xs.map(f)] where [f] may throw: the first exception aborts the map. *)
Fixpoint mapE {A B} (f : A -> outcome B) (xs : list A) : outcome (list B) :=
  match xs with
  | [] => Return []
  | x :: rest =>
      try y <~ f x in
      try ys <~ mapE f rest in
      Return (y :: ys)
  end.

(** [xs.forEach(f)] threading an accumulator, [f] may throw. *)
Fixpoint foldE {A S} (f : S -> A -> outcome S) (xs : list A) (s : S) : outcome S :=
  match xs with
  | [] => Return s
  | x :: rest => try s' <~ f s x in foldE f rest s'
  end.

(** ** Join kinds *)

Inductive PipeKind : Type := many | one | maybeOne | first | maybeFirst.

Inductive OrderDirection : Type := Asc | Desc.

(** ** Terminal cardinality shapers (the part after [buildResult]) *)

Module Terminal.

(** [one()]: throws unless exactly one result. *)
Definition one (results : list value) : outcome value :=
  if negb (length results =? 1)%nat
  then Throw (Expected1 (length results))
  else Return (index results 0).

(** [maybeOne()]: throws on more than one result, then [results[0] ?? null]. *)
Definition maybeOne (results : list value) : outcome value :=
  if (1 <? length results)%nat
  then Throw (ExpectedMaybe1 (length results))
  else Return (nullish (index results 0) VNull).

(** [first()]: throws on an empty result. *)
Definition first (results : list value) : outcome value :=
  if (length results =? 0)%nat
  then Throw ExpectedAtLeast1
  else Return (index results 0).

(** [maybeFirst()]: [results[0] ?? null]. *)
Definition maybeFirst (results : list value) : outcome value :=
  Return (nullish (index results 0) VNull).

End Terminal.

(** ** Cardinality of a nested join: [transformJoin] *)

Definition transformJoin (results : list value) (kind : PipeKind) : outcome value :=
  match kind with
  | many => Return (VArr results)
  | maybeFirst => Return (nullish (index results 0) VNull)
  | first =>
      if (length results =? 0)%nat then Throw NoResultSingleJoin
      else Return (index results 0)
  | maybeOne =>
      if (1 <? length results)%nat then Throw MultipleResultsSingleJoin
      else Return (nullish (index results 0) VNull)
  | one =>
      if (1 <? length results)%nat then Throw MultipleResultsSingleJoin
      else if (length results =? 0)%nat then Throw NoResultSingleJoin
      else Return (index results 0)
  end.

(** ** Rows, schema and helpers of [./Utils] *)

(** A cell as the driver returns it. *)
Inductive cell : Type := CNull | CInt (z : Z) | CText (s : string).

#[global] Instance cell_eq_dec : EqDecision cell.
Proof. solve_decision. Defined.

(** A fetched row, [Record<string, unknown>]: a missing key reads as
    [undefined], which is [None] here. *)
Abbreviation Row := (gmap string cell).

(** [`_${depth}`] *)
Definition aliasOfDepth (depth : nat) : string :=
  "_" +:+ NilEmpty.string_of_uint (Nat.to_uint depth).

(** Modelled from the spec: [dotCol] of [./Utils] (imported, not under
    src/); the call site documents it as the alias ["table.col"]. *)
Definition dotCol (table col : string) : string := table +:+ "." +:+ col.

(** Modelled from the spec: [dedupe] of [./Utils] (imported, not under
    src/): every string once, at the place of its first occurrence. *)
Fixpoint dedupe (xs : list string) : list string :=
  match xs with
  | [] => []
  | x :: rest => x :: filter (fun y => y <> x) (dedupe rest)
  end.

(** Modelled from the spec: [arrayEqual] of [./Utils] (imported, not under
    src/): same length and [===] cell by cell. *)
Definition arrayEqual (a b : list (option cell)) : bool := bool_decide (a = b).

(** [keys.includes(null)] *)
Definition includesNull (keys : list (option cell)) : bool :=
  existsb (fun k => bool_decide (k = Some CNull)) keys.

(** [xs.filter(isNotNull)] on an array of [string | null]. *)
Definition filterNotNull (xs : list (option string)) : list string := omap id xs.

(** [xs.filter(isNotNull)] on the result columns. *)
Definition filterNotNullRc {A} (xs : list (option A)) : list A := omap id xs.

(** [result[key] = v] on an insertion-ordered object. *)
Fixpoint objSet (fields : list (string * value)) (key : string) (v : value)
  : list (string * value) :=
  match fields with
  | [] => [(key, v)]
  | (k, old) :: rest =>
      if String.eqb k key then (k, v) :: rest else (k, old) :: objSet rest key v
  end.

Fixpoint objGet {A} (fields : list (string * A)) (key : string) : option A :=
  match fields with
  | [] => None
  | (k, a) :: rest => if String.eqb k key then Some a else objGet rest key
  end.

(** ** The SQL tree built through [zensqlite]'s builder *)

Inductive Expr : Type :=
| Column (table column : string)          (* b.Column({ column, table }) *)
| ColumnNamed (name : string)             (* b.Expr.Column(name) *)
| Literal (z : Z)                         (* b.literal(n) *)
| Equal (l r : Expr).                     (* b.Expr.Equal(l, r) *)

Inductive ResultColumn : Type :=
| RcExpr (e : Expr) (alias : string)      (* b.ResultColumn.Expr(e, b.Identifier(alias)) *)
| RcTableStar (table : string).           (* b.ResultColumn.TableStar(table) *)

Record OrderingTermNode : Type := MkOrderingTerm {
  ot_expr : Expr;
  ot_direction : OrderDirection }.

Record LimitNode : Type := MkLimit {
  lim_expr : Expr;
  lim_offset : option Expr }.

Inductive SelectStmt (W : Type) : Type :=
| MkSelect (resultColumns : list ResultColumn) (from : SelectFrom W)
    (where_ : option W) (limit : option LimitNode)
    (orderBy : option (list OrderingTermNode))
with SelectFrom (W : Type) : Type :=
| FromTable (table alias : string)
| FromLeftJoin (select : SelectStmt W) (selectAlias : string)
    (table alias : string) (on : Expr).
Arguments MkSelect {W}.
Arguments FromTable {W}.
Arguments FromLeftJoin {W}.

Definition sel_resultColumns {W} (s : SelectStmt W) : list ResultColumn :=
  match s with MkSelect rc _ _ _ _ => rc end.
Definition sel_from {W} (s : SelectStmt W) : SelectFrom W :=
  match s with MkSelect _ f _ _ _ => f end.

(** [arrayToOptionalNonEmptyArray] of zensqlite. *)
Definition arrayToOptionalNonEmptyArray {A} (xs : list A) : option (list A) :=
  match xs with [] => None | _ => Some xs end.

(** A where record, [{ col: value, ... }]. *)
Abbreviation WhereRec := (list (string * value)).
(** [valuesParamsMap], a [Map<any, string>] from values to parameter names. *)
Abbreviation ParamsMap := (list (value * string)).
(** The bound parameters, [Record<string, any>]. *)
Abbreviation Params := (list (string * value)).

(** A prepared statement of the driver: its text and the parameters bound
    to it, if any. *)
Record Statement : Type := MkStatement {
  st_sql : string;
  st_bound : option Params }.

(** What the file imports and src/ does not hold: the column descriptions
    and [parseColumn] of [./schema], [createWhere] and [paramsFromMap] of
    [./Utils], [printNode] of zensqlite and the driver's [Statement.all] (the
    rows the database holds for a statement).  [createWhere] extends the map
    it is given; here it returns the extended map. *)
Class Externals : Type := {
  ColumnSchema : Type;
  primary : ColumnSchema -> bool;
  parseColumn : ColumnSchema -> option cell -> outcome value;
  WhereNode : Type;
  createWhere : ParamsMap -> option WhereRec -> string -> option WhereNode * ParamsMap;
  paramsFromMap : ParamsMap -> option Params;
  printNode : SelectStmt WhereNode -> string;
  statementAll : Statement -> list Row;
}.

(** ** The query description: [DatabaseTableQueryInternal] *)

Section Model.
Context `{E : Externals}.

(** [schema.tables]: tables and their columns in declaration order. *)
Definition Schema : Type := list (string * list (string * ColumnSchema)).

Record LimitSpec : Type := MkLimitSpec {
  ls_limit : option Z;
  ls_offset : option Z }.

Definition OrderingTerm : Type := (string * OrderDirection)%type.

Inductive Internal : Type :=
| MkInternal (schema : Schema) (table : string)
    (selection : option (list string))
    (where_ : option WhereRec)
    (limit : option LimitSpec)
    (orderBy : option (list OrderingTerm))
    (parent : option QueryParent)
with QueryParent : Type :=
| MkParent (kind : PipeKind) (currentCol joinCol : string) (query : Internal).

Definition q_schema (q : Internal) := let 'MkInternal s _ _ _ _ _ _ := q in s.
Definition q_table (q : Internal) := let 'MkInternal _ t _ _ _ _ _ := q in t.
Definition q_selection (q : Internal) := let 'MkInternal _ _ s _ _ _ _ := q in s.
Definition q_where (q : Internal) := let 'MkInternal _ _ _ w _ _ _ := q in w.
Definition q_limit (q : Internal) := let 'MkInternal _ _ _ _ l _ _ := q in l.
Definition q_orderBy (q : Internal) := let 'MkInternal _ _ _ _ _ o _ := q in o.
Definition q_parent (q : Internal) := let 'MkInternal _ _ _ _ _ _ p := q in p.

Definition p_kind (p : QueryParent) := let 'MkParent k _ _ _ := p in k.
Definition p_currentCol (p : QueryParent) := let 'MkParent _ c _ _ := p in c.
Definition p_joinCol (p : QueryParent) := let 'MkParent _ _ j _ := p in j.
Definition p_query (p : QueryParent) := let 'MkParent _ _ _ q := p in q.

(** ** Resolution: [getResolved] / [resolveInternal] *)

Record ResolvedQuery : Type := MkResolvedQuery {
  rq_table : string;
  rq_tableAlias : string;
  rq_limit : option Z;
  rq_offset : option Z;
  rq_columns : option (list string);
  rq_joinColumns : list string;
  rq_primaryColumns : list string;
  rq_where : option WhereRec;
  rq_orderBy : option (list OrderingTerm) }.

Record ResolvedJoin : Type := MkResolvedJoin {
  rj_kind : PipeKind;
  rj_currentCol : string;
  rj_joinCol : string }.

Record ResolvedJoinItem : Type := MkResolvedJoinItem {
  ji_query : ResolvedQuery;
  ji_join : ResolvedJoin }.

Definition Resolved : Type := (ResolvedQuery * list ResolvedJoinItem)%type.

(** [Object.entries(columns).filter(([_, c]) => c[PRIV].primary).map(([k]) => k)],
    the columns in declaration order (column names are not integers);
    reading the columns of a table the schema does not have is a
    [TypeError]. *)
Definition primaryColumnsOf (schema : Schema) (table : string) : outcome (list string) :=
  match objGet schema table with
  | None => Throw TypeErrorUndefined
  | Some columns => Return (map fst (filter (fun kc => primary (snd kc) = true) columns))
  end.

Fixpoint resolveInternal (schema : Schema) (query : Internal)
    (parentJoinCol : option string) (depth : nat) {struct query} : outcome Resolved :=
  let 'MkInternal _ table selection where_ limit orderBy parent := query in
  let joinCol := match parent with Some p => Some (p_joinCol p) | None => None end in
  try primaryColumns <~ primaryColumnsOf schema table in
  let resolved := {|
    rq_table := table;
    rq_tableAlias := aliasOfDepth depth;
    rq_columns := selection;
    rq_joinColumns := filterNotNull [joinCol; parentJoinCol];
    rq_primaryColumns := primaryColumns;
    rq_limit := match limit with Some l => ls_limit l | None => None end;
    rq_offset := match limit with Some l => ls_offset l | None => None end;
    rq_where := where_;
    rq_orderBy := orderBy |} in
  match parent with
  | None => Return (resolved, [])
  | Some (MkParent kind currentCol pJoinCol pQuery) =>
      try inner <~ resolveInternal schema pQuery (Some currentCol) (S depth) in
      let join := {| rj_currentCol := currentCol; rj_joinCol := pJoinCol; rj_kind := kind |} in
      Return (fst inner, snd inner ++ [{| ji_query := resolved; ji_join := join |}])
  end.

(** ** Lowering to SQL: the helpers of [getPreparedStatement] *)

Record JoinArg : Type := MkJoinArg {
  ja_join : ResolvedJoin;
  ja_query : ResolvedQuery;
  ja_select : SelectStmt WhereNode }.

Definition createOrderBy (orderBy : option (list OrderingTerm)) (tableAlias : string)
  : option (list OrderingTermNode) :=
  match orderBy with
  | None => None
  | Some terms =>
      arrayToOptionalNonEmptyArray
        (map (fun t => {| ot_expr := Column tableAlias (fst t); ot_direction := snd t |}) terms)
  end.

Definition createLimit (limit offset : option Z) : option LimitNode :=
  match limit with
  | None => None
  | Some n =>
      Some {| lim_expr := Literal n;
              lim_offset := match offset with Some m => Some (Literal m) | None => None end |}
  end.

Definition createFrom (resolved : ResolvedQuery) (join : option JoinArg)
  : SelectFrom WhereNode :=
  match join with
  | Some j =>
      FromLeftJoin (ja_select j) (rq_tableAlias (ja_query j))
        (rq_table resolved) (rq_tableAlias resolved)
        (Equal
           (ColumnNamed (dotCol (rq_tableAlias (ja_query j)) (rj_currentCol (ja_join j))))
           (ColumnNamed (dotCol (rq_tableAlias resolved) (rj_joinCol (ja_join j)))))
  | None => FromTable (rq_table resolved) (rq_tableAlias resolved)
  end.

(** The columns a resolved query selects for itself. *)
Definition ownColumns (resolved : ResolvedQuery) : list string :=
  dedupe (default [] (rq_columns resolved)
          ++ rq_joinColumns resolved ++ rq_primaryColumns resolved).

(** The result column of one own column: the column of the aliased table,
    aliased to ["table.col"]. *)
Definition ownResultColumn (resolved : ResolvedQuery) (col : string) : ResultColumn :=
  RcExpr (Column (rq_tableAlias resolved) col) (dotCol (rq_tableAlias resolved) col).

(** [resolvedQueryToSelect]; [valuesParamsMap] is the map the closure
    captures, which [createWhere] extends. *)
Definition resolvedQueryToSelect (valuesParamsMap : ParamsMap)
    (resolved : ResolvedQuery) (join : option JoinArg)
  : SelectStmt WhereNode * ParamsMap :=
  let resultColumns :=
    filterNotNullRc
      (map (fun col => Some (ownResultColumn resolved col)) (ownColumns resolved)
       ++ [match join with
           | Some j => Some (RcTableStar (rq_tableAlias (ja_query j)))
           | None => None
           end]) in
  let from := createFrom resolved join in
  let w := createWhere valuesParamsMap (rq_where resolved) (rq_tableAlias resolved) in
  (MkSelect resultColumns from (fst w)
     (createLimit (rq_limit resolved) (rq_offset resolved))
     (createOrderBy (rq_orderBy resolved) (rq_tableAlias resolved)),
   snd w).

(** The body of [getPreparedStatement] up to [printNode]: one select for
    the base query, then one per join wrapped around the previous one. *)
Definition lowerJoin (acc : ParamsMap * ResolvedQuery * SelectStmt WhereNode)
    (item : ResolvedJoinItem) : ParamsMap * ResolvedQuery * SelectStmt WhereNode :=
  let '(valuesParamsMap, prevQuery, queryNode) := acc in
  let r := resolvedQueryToSelect valuesParamsMap (ji_query item)
             (Some {| ja_join := ji_join item; ja_query := prevQuery;
                      ja_select := queryNode |}) in
  (snd r, ji_query item, fst r).

Definition lowerResolved (r : Resolved) : SelectStmt WhereNode * ParamsMap :=
  let base := resolvedQueryToSelect [] (fst r) None in
  let '(valuesParamsMap, _, queryNode) :=
    fold_left lowerJoin (snd r) (snd base, fst r, fst base) in
  (queryNode, valuesParamsMap).

(** [getDb().prepare(queryText)] followed by [bind(params)] when there are
    parameters. *)
Definition prepare (r : Resolved) : Statement :=
  let lowered := lowerResolved r in
  {| st_sql := printNode (fst lowered);
     st_bound := paramsFromMap (snd lowered) |}.

(** ** Result building: [buildResult] / [groupRows] *)

Definition getColumnSchema (schema : Schema) (table column : string)
  : outcome ColumnSchema :=
  match objGet schema table with
  | None => Throw (TableNotFound table)
  | Some columns =>
      match objGet columns column with
      | None => Throw (ColumnNotFound column table)
      | Some c => Return c
      end
  end.

Record Group : Type := MkGroup {
  g_keys : list (option cell);
  g_rows : list Row }.

(** [groups.find(g => arrayEqual(g.keys, keys))] followed by
    [group.rows.push(row)]; [None] when no group has these keys. *)
Fixpoint pushToGroup (keys : list (option cell)) (row : Row) (groups : list Group)
  : option (list Group) :=
  match groups with
  | [] => None
  | g :: rest =>
      if arrayEqual (g_keys g) keys
      then Some ({| g_keys := g_keys g; g_rows := g_rows g ++ [row] |} :: rest)
      else match pushToGroup keys row rest with
           | Some rest' => Some (g :: rest')
           | None => None
           end
  end.

(** One turn of [rows.forEach] in [groupRows]. *)
Definition addRow (colsKey : list string) (groups : list Group) (row : Row)
  : list Group :=
  let keys := map (fun col => row !! col) colsKey in
  if includesNull keys then groups
  else match pushToGroup keys row groups with
       | Some groups' => groups'
       | None => groups ++ [{| g_keys := keys; g_rows := [row] |}]
       end.

(** The test of [groupRows] on one row: some primary-key cell is [null]. *)
Definition hasNullKey (query : ResolvedQuery) (row : Row) : bool :=
  includesNull
    (map (fun col => row !! col)
         (map (dotCol (rq_tableAlias query)) (rq_primaryColumns query))).

Definition groupsOf (query : ResolvedQuery) (rows : list Row) : list Group :=
  fold_left (addRow (map (dotCol (rq_tableAlias query)) (rq_primaryColumns query)))
    rows [].

(** The selected columns of a group, parsed from its first row. *)
Definition ownFields (schema : Schema) (query : ResolvedQuery) (group : Group)
  : outcome (list (string * value)) :=
  match rq_columns query with
  | None => Return []
  | Some columns =>
      foldE (fun result col =>
               try colSchema <~ getColumnSchema schema (rq_table query) col in
               try row0 <~ match g_rows group with
                           | r :: _ => Return r
                           | [] => Throw TypeErrorUndefined
                           end in
               try parsed <~ parseColumn colSchema
                               (row0 !! dotCol (rq_tableAlias query) col) in
               Return (objSet result col parsed))
            columns []
  end.

(** The end of the callback of [groups.map] for a joined query: without a
    selection the join content is the result; otherwise it is stored under
    the name of the joined table unless it is [undefined]. *)
Definition mergeJoin (query : ResolvedQuery) (joinName : string)
    (result : list (string * value)) (joinContent : value) : value :=
  match rq_columns query with
  | None => joinContent
  | Some _ =>
      match joinContent with
      | VUndefined => VObj result
      | _ => VObj (objSet result joinName joinContent)
      end
  end.

Fixpoint groupRows (schema : Schema) (query : ResolvedQuery)
    (joins : list ResolvedJoinItem) (rows : list Row) {struct joins}
  : outcome (list value) :=
  mapE (fun group =>
          try result <~ ownFields schema query group in
          match joins with
          | [] =>
              match rq_columns query with
              | None => Return VUndefined
              | Some _ => Return (VObj result)
              end
          | join :: nextJoins =>
              let joinName := rq_table (ji_query join) in
              try joinResult <~ groupRows schema (ji_query join) nextJoins (g_rows group) in
              try joinContent <~ transformJoin joinResult (rj_kind (ji_join join)) in
              Return (mergeJoin query joinName result joinContent)
          end)
       (groupsOf query rows).

End Model.

(** ** Reading the lowered query *)

(** The names of the columns of the rows a select returns.  An expression
    column is named by its alias; [t.*] over the sub-select aliased [t]
    stands for the columns of that sub-select, under their names.  (A star
    over a plain table would stand for the columns of the table; the lowering
    never builds one.) *)
Fixpoint outputNames {W} (s : SelectStmt W) : list string :=
  let 'MkSelect resultColumns from _ _ _ := s in
  flat_map (fun rc =>
              match rc with
              | RcExpr _ alias => [alias]
              | RcTableStar t =>
                  match from with
                  | FromLeftJoin sub subAlias _ _ _ =>
                      if String.eqb t subAlias then outputNames sub else []
                  | FromTable _ _ => []
                  end
              end)
           resultColumns.

(** Every primary-key cell of every query in [seen] is a column of the rows
    [node] returns. *)
Definition keysPresent `{E : Externals} (seen : list ResolvedQuery)
    (node : SelectStmt WhereNode) : Prop :=
  forall q col, q ∈ seen -> col ∈ rq_primaryColumns q ->
                dotCol (rq_tableAlias q) col ∈ outputNames node.

(** Modelled from the spec: what a where record asks of a row.  [createWhere]
    of [./Utils] is not under src/; a where record lists columns with the
    value each must equal (the spec's "AND of equals"). *)
Definition whereHolds (w : WhereRec) (row : gmap string value) : Prop :=
  Forall (fun cv => row !! fst cv = Some (snd cv)) w.

Definition whereClauseHolds (w : option WhereRec) (row : gmap string value) : Prop :=
  match w with
  | None => True
  | Some conds => whereHolds conds row
  end.

(** ** The query object: [class DatabaseTableQuery] *)

Module DatabaseTableQuery.
Section Methods.
Context `{E : Externals}.

(** An instance: the readonly description [this[PRIV]] and the two private
    caches.  No method writes to a description, so it is held by value;
    [pipeInternal] hands the receiver's to the parent of the new object. *)
Record Object : Type := MkObject {
  priv : Internal;
  preparedStatement : option Statement;
  resolved : option Resolved }.

(** The heap of query objects, by reference. *)
Abbreviation Heap := (gmap nat Object).

(** An object as [new] leaves it. *)
Definition pristine (q : Internal) : Object :=
  {| priv := q; preparedStatement := None; resolved := None |}.

(** [new DatabaseTableQuery(getDb, internal)] *)
Definition new (h : Heap) (internal : Internal) : nat * Heap :=
  let ref := fresh (dom h) in
  (ref, <[ref := pristine internal]> h).

Definition create (h : Heap) (schema : Schema) (table : string) : nat * Heap :=
  new h (MkInternal schema table None None None None None).

(** *** Builders *)

(** [{ ...this[PRIV], selection }] and its three siblings. *)
Definition withSelection (q : Internal) (selection : list string) : Internal :=
  let 'MkInternal schema table _ where_ limit orderBy parent := q in
  MkInternal schema table (Some selection) where_ limit orderBy parent.

Definition withWhere (q : Internal) (w : WhereRec) : Internal :=
  let 'MkInternal schema table selection _ limit orderBy parent := q in
  MkInternal schema table selection (Some w) limit orderBy parent.

Definition withLimit (q : Internal) (n offset : option Z) : Internal :=
  let 'MkInternal schema table selection where_ _ orderBy parent := q in
  MkInternal schema table selection where_
    (Some {| ls_limit := n; ls_offset := offset |}) orderBy parent.

Definition withOrderBy (q : Internal) (terms : list OrderingTerm) : Internal :=
  let 'MkInternal schema table selection where_ limit _ parent := q in
  MkInternal schema table selection where_ limit (Some terms) parent.

(** The description [pipeInternal] builds; [this[PRIV]] becomes the parent. *)
Definition piped (q : Internal) (kind : PipeKind) (currentCol table joinCol : string)
  : Internal :=
  MkInternal (q_schema q) table None None None None
    (Some (MkParent kind currentCol joinCol q)).

Definition select (h : Heap) (this : nat) (selection : list string)
  : option (nat * Heap) :=
  o ← h !! this; Some (new h (withSelection (priv o) selection)).

Definition where_ (h : Heap) (this : nat) (w : WhereRec) : option (nat * Heap) :=
  o ← h !! this; Some (new h (withWhere (priv o) w)).

Definition limit (h : Heap) (this : nat) (n : option Z) (offset : option Z)
  : option (nat * Heap) :=
  o ← h !! this; Some (new h (withLimit (priv o) n offset)).

(** The two overloads of [orderBy]. *)
Inductive OrderByArgs : Type :=
  | ByColumn (column : string) (direction : option OrderDirection)
  | ByTerms (arg1 : OrderingTerm) (others : list OrderingTerm).

Definition orderByTerms (args : OrderByArgs) : list OrderingTerm :=
  match args with
  | ByColumn column direction => [(column, default Asc direction)]
  | ByTerms arg1 others =>
      match others with
      | arg2 :: rest => [arg1; arg2] ++ rest
      | [] => [arg1]
      end
  end.

Definition orderBy (h : Heap) (this : nat) (args : OrderByArgs) : option (nat * Heap) :=
  o ← h !! this; Some (new h (withOrderBy (priv o) (orderByTerms args))).

Definition pipeInternal (h : Heap) (this : nat) (kind : PipeKind)
    (currentCol table joinCol : string) : option (nat * Heap) :=
  o ← h !! this; Some (new h (piped (priv o) kind currentCol table joinCol)).

Definition pipe h this currentCol table joinCol :=
  pipeInternal h this many currentCol table joinCol.
Definition pipeOne h this currentCol table joinCol :=
  pipeInternal h this one currentCol table joinCol.
Definition pipeMaybeOne h this currentCol table joinCol :=
  pipeInternal h this maybeOne currentCol table joinCol.
Definition pipeFirst h this currentCol table joinCol :=
  pipeInternal h this first currentCol table joinCol.
Definition pipeMaybeFirst h this currentCol table joinCol :=
  pipeInternal h this maybeFirst currentCol table joinCol.

(** Every call a builder chain can make on a receiver. *)
Inductive Builder : Type :=
  | BSelect (selection : list string)
  | BWhere (w : WhereRec)
  | BLimit (n offset : option Z)
  | BOrderBy (args : OrderByArgs)
  | BPipe (kind : PipeKind) (currentCol table joinCol : string).

Definition runBuilder (h : Heap) (this : nat) (b : Builder) : option (nat * Heap) :=
  match b with
  | BSelect selection => select h this selection
  | BWhere w => where_ h this w
  | BLimit n offset => limit h this n offset
  | BOrderBy args => orderBy h this args
  | BPipe many c t j => pipe h this c t j
  | BPipe one c t j => pipeOne h this c t j
  | BPipe maybeOne c t j => pipeMaybeOne h this c t j
  | BPipe first c t j => pipeFirst h this c t j
  | BPipe maybeFirst c t j => pipeMaybeFirst h this c t j
  end.

(** The description a builder call gives the object it returns. *)
Definition built (q : Internal) (b : Builder) : Internal :=
  match b with
  | BSelect selection => withSelection q selection
  | BWhere w => withWhere q w
  | BLimit n offset => withLimit q n offset
  | BOrderBy args => withOrderBy q (orderByTerms args)
  | BPipe kind currentCol table joinCol => piped q kind currentCol table joinCol
  end.

(** *** The cached getters *)

Definition getResolved (h : Heap) (this : nat) : outcome Resolved * Heap :=
  match h !! this with
  | None => (Throw TypeErrorUndefined, h)
  | Some o =>
      match resolved o with
      | Some r => (Return r, h)
      | None =>
          match resolveInternal (q_schema (priv o)) (priv o) None 0 with
          | Throw e => (Throw e, h)
          | Return r =>
              (Return r,
               <[this := {| priv := priv o; preparedStatement := preparedStatement o;
                            resolved := Some r |}]> h)
          end
      end
  end.

Definition getPreparedStatement (h : Heap) (this : nat) : outcome Statement * Heap :=
  match h !! this with
  | None => (Throw TypeErrorUndefined, h)
  | Some o =>
      match preparedStatement o with
      | Some st => (Return st, h)
      | None =>
          match getResolved h this with
          | (Throw e, h1) => (Throw e, h1)
          | (Return r, h1) =>
              let st := prepare r in
              (Return st,
               alter (fun o1 => {| priv := priv o1; preparedStatement := Some st;
                                   resolved := resolved o1 |}) this h1)
          end
      end
  end.

Definition buildResult (h : Heap) (this : nat) (rows : list Row)
  : outcome (list value) * Heap :=
  match getResolved h this with
  | (Throw e, h1) => (Throw e, h1)
  | (Return r, h1) =>
      match h1 !! this with
      | None => (Throw TypeErrorUndefined, h1)
      | Some o => (groupRows (q_schema (priv o)) (fst r) (snd r) rows, h1)
      end
  end.

(** What one emission leaves behind: the statement (text and bound
    parameters) and the resolved plan the results are built from. *)
Definition emission (h : Heap) (this : nat)
  : outcome (Statement * Resolved) * Heap :=
  match getPreparedStatement h this with
  | (Throw e, h1) => (Throw e, h1)
  | (Return st, h1) =>
      match getResolved h1 this with
      | (Throw e, h2) => (Throw e, h2)
      | (Return r, h2) => (Return (st, r), h2)
      end
  end.

(** *** Extraction *)

(** [getPreparedStatement().all()] then [buildResult(rows)], shared by the
    five terminal methods. *)
Definition results (h : Heap) (this : nat) : outcome (list value) * Heap :=
  match getPreparedStatement h this with
  | (Throw e, h1) => (Throw e, h1)
  | (Return st, h1) => buildResult h1 this (statementAll st)
  end.

Definition all (h : Heap) (this : nat) : outcome value * Heap :=
  let r := results h this in (try rs <~ fst r in Return (VArr rs), snd r).

Definition one (h : Heap) (this : nat) : outcome value * Heap :=
  let r := results h this in (try rs <~ fst r in Terminal.one rs, snd r).

Definition maybeOne (h : Heap) (this : nat) : outcome value * Heap :=
  let r := results h this in (try rs <~ fst r in Terminal.maybeOne rs, snd r).

Definition first (h : Heap) (this : nat) : outcome value * Heap :=
  let r := results h this in (try rs <~ fst r in Terminal.first rs, snd r).

Definition maybeFirst (h : Heap) (this : nat) : outcome value * Heap :=
  let r := results h this in (try rs <~ fst r in Terminal.maybeFirst rs, snd r).

End Methods.

Abbreviation Heap := (gmap nat Object).

End DatabaseTableQuery.

(** ** A concrete database: the users and tasks of the test suite *)

Module Sample.

Definition cellValue (c : option cell) : value :=
  match c with
  | None => VUndefined
  | Some CNull => VNull
  | Some (CInt z) => VNum z
  | Some (CText t) => VStr t
  end.

Definition printExpr (e : Expr) : string :=
  match e with
  | Column t c => t +:+ "." +:+ c
  | ColumnNamed n => n
  | Literal _ => "?"
  | Equal (ColumnNamed a) (ColumnNamed b) => a +:+ " == " +:+ b
  | Equal _ _ => "?"
  end.

Definition printResultColumn (rc : ResultColumn) : string :=
  match rc with
  | RcExpr e a => printExpr e +:+ " AS [" +:+ a +:+ "]"
  | RcTableStar t => t +:+ ".*"
  end.

Fixpoint printSelect (s : SelectStmt (list string)) : string :=
  let 'MkSelect rcs from w _ _ := s in
  "SELECT " +:+ String.concat ", " (map printResultColumn rcs) +:+ " FROM " +:+
  match from with
  | FromTable t a => t +:+ " AS " +:+ a
  | FromLeftJoin sub subAlias t a on =>
      "(" +:+ printSelect sub +:+ ") AS " +:+ subAlias +:+ " LEFT JOIN " +:+ t +:+
      " AS " +:+ a +:+ " ON " +:+ printExpr on
  end +:+
  match w with
  | Some conds => " WHERE " +:+ String.concat " AND " conds
  | None => ""
  end.

(** Parameters are named after the column they constrain. *)
Definition sampleCreateWhere (m : ParamsMap) (w : option WhereRec) (tableAlias : string)
  : option (list string) * ParamsMap :=
  match w with
  | None => (None, m)
  | Some conds =>
      (Some (map (fun cv => dotCol tableAlias (fst cv) +:+ " == :" +:+ fst cv) conds),
       m ++ map (fun cv => (snd cv, fst cv)) conds)
  end.

Definition sampleParams (m : ParamsMap) : option Params :=
  match m with
  | [] => None
  | _ => Some (map (fun vn => (snd vn, fst vn)) m)
  end.

(** The collaborators, with a driver that answers every statement with
    [rows]. *)
Definition externals (rows : list Row) : Externals := {|
  ColumnSchema := bool;
  primary := fun c => c;
  parseColumn := fun _ c => Return (cellValue c);
  WhereNode := list string;
  createWhere := sampleCreateWhere;
  paramsFromMap := sampleParams;
  printNode := printSelect;
  statementAll := fun _ => rows |}.

Definition schema : @Schema (externals []) :=
  [("tasks", [("id", true); ("title", false)]);
   ("users", [("id", true); ("name", false)]);
   ("joinUsersTasks", [("user_id", true); ("task_id", true)])].

Definition row (cells : list (string * cell)) : Row := list_to_map cells.

(** [users.query().select({id, name}).pipe('id', 'joinUsersTasks', 'user_id')
    .select({task_id})] *)
Definition usersWithLinks (kind : PipeKind) : @Internal (externals []) :=
  DatabaseTableQuery.withSelection
    (DatabaseTableQuery.piped
       (DatabaseTableQuery.withSelection
          (MkInternal schema "users" None None None None None) ["id"; "name"])
       kind "id" "joinUsersTasks" "user_id")
    ["task_id"].

(** The users of [usersWithLinks], resolved. *)
Definition usersQuery : @ResolvedQuery := {|
  rq_table := "users"; rq_tableAlias := "_1"; rq_limit := None; rq_offset := None;
  rq_columns := Some ["id"; "name"]; rq_joinColumns := ["id"];
  rq_primaryColumns := ["id"]; rq_where := None; rq_orderBy := None |}.

(** The link rows of [usersWithLinks], resolved. *)
Definition linksQuery : @ResolvedQuery := {|
  rq_table := "joinUsersTasks"; rq_tableAlias := "_0"; rq_limit := None;
  rq_offset := None; rq_columns := Some ["task_id"]; rq_joinColumns := ["user_id"];
  rq_primaryColumns := ["user_id"; "task_id"]; rq_where := None; rq_orderBy := None |}.

Definition linksJoin (kind : PipeKind) : @ResolvedJoinItem := {|
  ji_query := linksQuery;
  ji_join := {| rj_kind := kind; rj_currentCol := "id"; rj_joinCol := "user_id" |} |}.

Definition userRow (id : Z) (name : string) (link : cell * cell) : Row :=
  row [("_1.id", CInt id); ("_1.name", CText name);
       ("_0.user_id", fst link); ("_0.task_id", snd link)].

(** What the left join of the four users with the four link rows
    [(1,1), (1,2), (2,3), (3,1)] returns. *)
Definition leftJoinRows : list Row :=
  [userRow 1 "John Doe" (CInt 1, CInt 1);
   userRow 1 "John Doe" (CInt 1, CInt 2);
   userRow 2 "Jane Doe" (CInt 2, CInt 3);
   userRow 3 "Jack Doe" (CInt 3, CInt 1);
   userRow 4 "Jill Doe" (CNull, CNull)].

End Sample.

(** ** The expression emitter and its parameters *)

(** The emitter that names externals is not under src/ (only
    [tests/readme.test.ts] exercises it); this module follows sections 3, 4.1,
    4.4 and 4.6 of the specification. *)
Module Emitter.



(** Modelled from the spec: the expression algebra of section 3, which
    src/ does not hold, with the variants that can carry an external. *)
Inductive Expr : Type :=
  | Column (table column : string)
  | Literal (v : cell)
  | External (v : cell) (label : option string)
  | BinOp (op : string) (lhs rhs : Expr)
  | UnaryOp (op : string) (arg : Expr).












(** The externals of an expression, left to right. *)
Fixpoint externals (e : Expr) : list (cell * option string) :=
  match e with
  | Column _ _ | Literal _ => []
  | External v label => [(v, label)]
  | BinOp _ l r => externals l ++ externals r
  | UnaryOp _ a => externals a
  end.






(** *** The invariants of the emitter state *)





End Emitter.

(** ** Lifting derived queries into common table expressions *)

(** The emitter that decides between a CTE and an inline query is not under
    src/; the tests of [unnamed/part_000] and [tests/readme.test.ts] record
    what it prints.  This module follows section 4.6 of the specification
    (collect, decide, emit) and those recorded emissions. *)
Module Cte.

(** Modelled from the spec: how one query refers to another (section 3,
    Query: source, joins and subquery predicates; not under src/). *)
Inductive Site : Type :=
  | AtSource (promoted : bool)     (* DerivedQuery(q, promoted); queryFrom promotes *)
  | AtJoin (left : bool)           (* innerJoin / leftJoin operand *)
  | AtInSubquery (negated : bool). (* inSubquery / notInSubquery predicate *)

(** Modelled from the spec: a query value (section 3, not under src/): its
    base table, the clauses it carries (opaque here) and the queries it
    refers to, each by its identity token. *)
Record Node : Type := MkNode {
  n_table : string;
  n_clauses : list string;
  n_refs : list (Site * nat) }.

(** Modelled from the spec: the query values of a session in construction
    order (not under src/): the identity token of a value is its position
    (section 9: a monotonic counter assigned at construction). *)
Definition Store : Type := list Node.

Definition refsOf (st : Store) (i : nat) : list (Site * nat) :=
  match st !! i with
  | Some n => n_refs n
  | None => []
  end.



(** A plain scan [T.query()]: no clause and no reference. *)
Definition plainScan (st : Store) (i : nat) : bool :=
  match st !! i with
  | Some n => match n_clauses n, n_refs n with [], [] => true | _, _ => false end
  | None => true
  end.

(** The sites collected so far, by identity. *)
Definition sitesOf (m : gmap nat (list Site)) (d : nat) : list Site :=
  default [] (m !! d).

(** Visiting one query records a site for each query it refers to. *)
Definition visit (refs : list (Site * nat)) (m : gmap nat (list Site))
  : gmap nat (list Site) :=
  fold_left (fun acc sc => <[snd sc := sitesOf acc (snd sc) ++ [fst sc]]> acc) refs m.

(** Modelled from the spec: step 1 of section 4.6, Collect (the emitter is
    not under src/).  From the root downwards, every distinct query that is
    the root or has been referred to is visited once; the result is the sites
    of each query referred to and the visited queries, earliest first. *)
Fixpoint sweep (st : Store) (r k : nat) (acc : gmap nat (list Site) * list nat)
  : gmap nat (list Site) * list nat :=
  match k with
  | 0 => acc
  | S i =>
      sweep st r i
        (if bool_decide (i = r) || bool_decide (i ∈ dom (fst acc))
         then (visit (refsOf st i) (fst acc), i :: snd acc)
         else acc)
  end.

Definition collect (st : Store) (r : nat) : gmap nat (list Site) * list nat :=
  sweep st r (S r) (∅, []).

Definition promotes (s : Site) : bool :=
  match s with
  | AtSource promoted => promoted
  | AtInSubquery _ => true
  | AtJoin _ => false
  end.

Definition isJoin (s : Site) : bool :=
  match s with AtJoin _ => true | _ => false end.

(** Modelled from the spec: step 2 of section 4.6, Decide (not under src/).
    A query becomes a CTE when (a) it is referred to at least twice, (b) it
    was promoted with [queryFrom], or (c) it stands in an [inSubquery] or
    [notInSubquery] predicate.  The recorded emission of the left join of
    [tasksByUserId] ([WITH cte_id3 AS ... LEFT JOIN cte_id3 AS t_id4]) adds
    (d): it is a join operand that is not a plain scan. *)
Definition lifted (st : Store) (m : gmap nat (list Site)) (d : nat) : bool :=
  (2 <=? length (sitesOf m d))%nat
  || existsb promotes (sitesOf m d)
  || (existsb isJoin (sitesOf m d) && negb (plainScan st d)).

(** The rule of section 4.6 alone, (a) to (c). *)
Definition liftedBySpec (m : gmap nat (list Site)) (d : nat) : bool :=
  (2 <=? length (sitesOf m d))%nat || existsb promotes (sitesOf m d).

(** Modelled from the spec: how a reference is printed (section 4.6, not
    under src/): the name of the CTE, or the query inline. *)
Inductive RefForm : Type :=
  | ByName (cte : nat)
  | Inline (q : nat).

#[global] Instance RefForm_eq_dec : EqDecision RefForm.
Proof. solve_decision. Defined.

(** Modelled from the spec: the select printed for one query (not under
    src/), reduced to its references. *)
Record Body : Type := MkBody {
  b_query : nat;
  b_refs : list (Site * RefForm) }.

Definition render (st : Store) (m : gmap nat (list Site)) (i : nat) : Body :=
  {| b_query := i;
     b_refs := map (fun sc => (fst sc,
                               if lifted st m (snd sc) then ByName (snd sc)
                               else Inline (snd sc)))
                   (refsOf st i) |}.

(** Modelled from the spec: what is printed (section 4.6, not under src/):
    the [WITH] list, the root select, and the selects that are printed
    inline where they are referred to. *)
Record Emission : Type := MkEmission {
  withs : list Body;
  root : Body;
  inlines : list Body }.

(** Modelled from the spec: steps 3 and 4 of section 4.6 (not under src/):
    the CTEs in topological order (earliest first), then the root select. *)
Definition emit (st : Store) (r : nat) : Emission :=
  let c := collect st r in
  let others := filter (fun i => i <> r) (snd c) in
  {| withs := map (render st (fst c)) (filter (fun d => lifted st (fst c) d = true) others);
     root := render st (fst c) r;
     inlines := map (render st (fst c))
                    (filter (fun d => lifted st (fst c) d <> true) others) |}.







(** *** The stores of the recorded tests *)

(** [tasksByUserId = joinUsersTasks.query().innerJoin(tasks.query(), ...)
    .groupBy(...).select(...)], then [allUsers.leftJoin(tasksByUserId, ...)]. *)
Definition leftJoinStore : Store :=
  [ {| n_table := "users"; n_clauses := []; n_refs := [] |};
    {| n_table := "tasks"; n_clauses := []; n_refs := [] |};
    {| n_table := "joinUsersTasks";
       n_clauses := ["GROUP BY joinUsersTasks.user_id"; "SELECT userId, tasks"];
       n_refs := [(AtJoin false, 1)] |};
    {| n_table := "users"; n_clauses := ["SELECT ..., tasks"];
       n_refs := [(AtJoin true, 2)] |} ].

(** [users.query().where(c => Expr.notInSubquery(c.id, usersWithTasks))] *)
Definition notInStore : Store :=
  [ {| n_table := "joinUsersTasks";
       n_clauses := ["GROUP BY joinUsersTasks.user_id"; "SELECT id"]; n_refs := [] |};
    {| n_table := "users"; n_clauses := []; n_refs := [(AtInSubquery true, 0)] |} ].

(** [queryFrom(query1)] *)
Definition queryFromStore : Store :=
  [ {| n_table := "users"; n_clauses := ["SELECT demo, id"; "GROUP BY users.name"];
       n_refs := [] |};
    {| n_table := ""; n_clauses := []; n_refs := [(AtSource true, 0)] |} ].

(** A derived query used in a join and in a predicate of the same root. *)
Definition twiceStore : Store :=
  [ {| n_table := "joinUsersTasks"; n_clauses := ["GROUP BY joinUsersTasks.user_id"];
       n_refs := [] |};
    {| n_table := "users"; n_clauses := [];
       n_refs := [(AtJoin false, 0); (AtInSubquery false, 0)] |} ].

End Cte.

(** ** Users with their tasks: join, group and aggregate as JSON *)

(** Neither the database that evaluates the SQL nor the shaper of the
    reconstruction plan is under src/ (the test of [unnamed/part_000] records
    the expected result); this module follows sections 4.6, 4.7 and 8 of the
    specification. *)
Module Scenario.

(** Modelled from the spec: a row of a table or of a result (section 6,
    the driver's rows; not under src/): column name to SQL value.  A [TEXT]
    that holds JSON is kept as the JSON value it denotes (JSON parsing is the
    codec's business, section 1). *)
Definition SqlRow : Type := list (string * value).

Definition column (row : SqlRow) (name : string) : value :=
  default VNull (objGet row name).

(** SQL [==] on the values of the sample: texts and integers. *)
Definition sqlEqual (a b : value) : bool :=
  match a, b with
  | VStr x, VStr y => String.eqb x y
  | VNum x, VNum y => Z.eqb x y
  | _, _ => false
  end.

Definition qualify (alias : string) (row : SqlRow) : SqlRow :=
  map (fun cv => (alias +:+ "." +:+ fst cv, snd cv)) row.

(** Modelled from the spec: [FROM l INNER JOIN r ON on] as the database
    evaluates it (the driver is outside src/): each left row with each right
    row it matches, in table order. *)
Definition innerJoin (l r : list SqlRow) (on : SqlRow -> SqlRow -> bool) : list SqlRow :=
  flat_map (fun lrow => map (fun rrow => lrow ++ rrow) (List.filter (on lrow) r)) l.

(** Modelled from the spec: [FROM l LEFT JOIN r ON on] as the database
    evaluates it (the driver is outside src/): as the inner join, but a left
    row without a match comes once, with null for the columns of [r]. *)
Definition leftJoin (l r : list SqlRow) (rightColumns : list string)
    (on : SqlRow -> SqlRow -> bool) : list SqlRow :=
  flat_map (fun lrow =>
              match List.filter (on lrow) r with
              | [] => [lrow ++ map (fun c => (c, VNull)) rightColumns]
              | matches => map (fun rrow => lrow ++ rrow) matches
              end) l.

(** Puts a row into the group of its key, or opens a new group at the end. *)
Fixpoint intoGroup (key : value) (row : SqlRow) (groups : list (value * list SqlRow))
  : list (value * list SqlRow) :=
  match groups with
  | [] => [(key, [row])]
  | (k, rows) :: rest =>
      if sqlEqual k key then (k, rows ++ [row]) :: rest
      else (k, rows) :: intoGroup key row rest
  end.

(** Modelled from the spec: [GROUP BY key] as the database evaluates it (the
    driver is outside src/): the groups in the order their keys first occur,
    each with its rows in order. *)
Definition groupBy (key : SqlRow -> value) (rows : list SqlRow)
  : list (value * list SqlRow) :=
  fold_left (fun groups row => intoGroup (key row) row groups) rows [].

(** Modelled from the spec: [json_object('k1', c1, ...)] over one row, as
    the database evaluates it (outside src/). *)
Definition jsonObject (pairs : list (string * string)) (row : SqlRow) : value :=
  VObj (map (fun kc => (fst kc, column row (snd kc))) pairs).

(** Modelled from the spec: [json_group_array(e)] over the rows of a group,
    as the database evaluates it (outside src/). *)
Definition jsonGroupArray (e : SqlRow -> value) (rows : list SqlRow) : value :=
  VArr (map e rows).

(** Modelled from the spec: the codecs of section 3 that the sample uses
    (not under src/). *)
Inductive Codec : Type := TextCodec | IntegerCodec | BooleanCodec.

(** Modelled from the spec: [codec.parse] of section 4.2 (not under src/);
    booleans are stored as 0 and 1. *)
Definition parse (codec : Codec) (name : string) (v : value) : outcome value :=
  match codec, v with
  | TextCodec, VStr t => Return (VStr t)
  | IntegerCodec, VNum z => Return (VNum z)
  | BooleanCodec, VNum 0 => Return (VBool false)
  | BooleanCodec, VNum 1 => Return (VBool true)
  | _, _ => Throw (ParseError name)
  end.

(** Modelled from the spec: the reconstruction plan of section 3 (not
    under src/). *)
Inductive Plan : Type :=
| Scalar (resultColumnName : string) (codec : Codec)
| NestedObject (fields : list (string * Plan))
| NestedArray (resultColumnName : string) (elementPlan : Plan)
| LeftJoinShape (joinedCells : list string) (plan : Plan).

(** Modelled from the spec: the shaper of section 4.7 (not under src/).  A
    scalar is parsed by its codec; a nested object is shaped field by field
    from the same row; the elements of a nested array are shaped as rows
    whose keys are the keys of the JSON object; a left-join shape is null
    when every cell of the joined subtree that the row carries is null. *)
Fixpoint shape (plan : Plan) (row : SqlRow) {struct plan} : outcome value :=
  match plan with
  | Scalar name codec => parse codec name (column row name)
  | NestedObject fields =>
      try shaped <~ (fix shapeFields (fs : list (string * Plan))
                       : outcome (list (string * value)) :=
                       match fs with
                       | [] => Return []
                       | (key, p) :: rest =>
                           try v <~ shape p row in
                           try vs <~ shapeFields rest in
                           Return ((key, v) :: vs)
                       end) fields in
      Return (VObj shaped)
  | NestedArray name elementPlan =>
      match column row name with
      | VArr items =>
          try shaped <~ mapE (fun item =>
                                match item with
                                | VObj fields => shape elementPlan fields
                                | _ => Throw (ParseError name)
                                end) items in
          Return (VArr shaped)
      | _ => Throw (ParseError name)
      end
  | LeftJoinShape joinedCells inner =>
      if forallb (fun name => match column row name with VNull => true | _ => false end)
           joinedCells
      then Return VNull
      else shape inner row
  end.

(** *** The sample data *)

Definition task (id title : string) (completed : Z) : SqlRow :=
  [("id", VStr id); ("title", VStr title); ("description", VStr title);
   ("completed", VNum completed)].

Definition tasks : list SqlRow :=
  [task "1" "First Task" 0; task "2" "Second Task" 1; task "3" "Third Task" 1;
   task "4" "Fourth Task" 0; task "5" "Fifth Task" 0].

Definition link (user_id task_id : string) : SqlRow :=
  [("user_id", VStr user_id); ("task_id", VStr task_id)].

Definition joinUsersTasks : list SqlRow :=
  [link "1" "1"; link "1" "2"; link "2" "3"; link "3" "1"].

Definition user (id name : string) : SqlRow := [("id", VStr id); ("name", VStr name)].

(** The four users (their other columns play no part here). *)
Definition users : list SqlRow :=
  [user "1" "John Doe"; user "2" "Jane Doe"; user "3" "Jack Doe"; user "4" "Jill Doe"].

(** *** The query of S1 *)

(** [joinUsersTasks.query().innerJoin(tasks.query(), "task", c =>
    Expr.equal(c.task_id, c.task.id)).groupBy(c => [c.user_id]).select(c =>
    ({ userId: c.user_id, tasks: Expr.jsonGroupArray(Expr.jsonObj(c.task)) }))]
    as the database answers it. *)
Definition tasksByUserId (links taskTable : list SqlRow) : list SqlRow :=
  let joined :=
    innerJoin (map (qualify "joinUsersTasks") links) (map (qualify "t") taskTable)
      (fun l r => sqlEqual (column l "joinUsersTasks.task_id") (column r "t.id")) in
  map (fun group =>
         [("userId", fst group);
          ("tasks",
           jsonGroupArray
             (jsonObject [("id", "t.id"); ("title", "t.title");
                          ("description", "t.description");
                          ("completed", "t.completed")])
             (snd group))])
      (groupBy (fun row => column row "joinUsersTasks.user_id") joined).

(** The plan recorded with the projection. *)
Definition tasksByUserIdPlan : Plan :=
  NestedObject
    [("userId", Scalar "userId" TextCodec);
     ("tasks",
      NestedArray "tasks"
        (NestedObject
           [("id", Scalar "id" TextCodec); ("title", Scalar "title" TextCodec);
            ("description", Scalar "description" TextCodec);
            ("completed", Scalar "completed" BooleanCodec)]))].

(** *** The query of S2 *)

(** [allUsers.leftJoin(tasksByUserId, "tasks", c => Expr.equal(c.id,
    c.tasks.userId)).select(({ tasks, ...rest }) => ({ ...rest, tasks:
    tasks.tasks }))] as the database answers it. *)
Definition usersWithTasks (userTable links taskTable : list SqlRow) : list SqlRow :=
  map (fun row => [("id", column row "users.id"); ("name", column row "users.name");
                   ("tasks", column row "t.tasks")])
      (leftJoin (map (qualify "users") userTable)
         (map (qualify "t") (tasksByUserId links taskTable))
         ["t.userId"; "t.tasks"]
         (fun l r => sqlEqual (column l "users.id") (column r "t.userId"))).

(** The plan recorded with the projection: the tasks come from the
    left-joined subquery. *)
Definition usersWithTasksPlan : Plan :=
  NestedObject
    [("id", Scalar "id" TextCodec); ("name", Scalar "name" TextCodec);
     ("tasks",
      LeftJoinShape ["tasks"]
        (NestedArray "tasks"
           (NestedObject
              [("id", Scalar "id" TextCodec); ("title", Scalar "title" TextCodec);
               ("description", Scalar "description" TextCodec);
               ("completed", Scalar "completed" BooleanCodec)])))].

(** [db.exec(tasksByUserId.all())] *)
Definition execAll (plan : Plan) (rows : list SqlRow) : outcome (list value) :=
  mapE (shape plan) rows.

End Scenario.

(** ** The chain of pipes behind a query *)

Section Chain.
Context `{E : Externals}.

(** The number of pipes behind a description. *)
Fixpoint parents (q : Internal) : nat :=
  match q with
  | MkInternal _ _ _ _ _ _ None => 0
  | MkInternal _ _ _ _ _ _ (Some (MkParent _ _ _ p)) => S (parents p)
  end.

(** The descriptions of the chain, the first one piped from first. *)
Fixpoint chainOf (q : Internal) : list Internal :=
  match q with
  | MkInternal _ _ _ _ _ _ None => [q]
  | MkInternal _ _ _ _ _ _ (Some (MkParent _ _ _ p)) => chainOf p ++ [q]
  end.

(** The pipes of the chain in the order they were made. *)
Fixpoint pipesOf (q : Internal) : list ResolvedJoin :=
  match q with
  | MkInternal _ _ _ _ _ _ None => []
  | MkInternal _ _ _ _ _ _ (Some (MkParent kind currentCol joinCol p)) =>
      pipesOf p ++ [{| rj_kind := kind; rj_currentCol := currentCol; rj_joinCol := joinCol |}]
  end.

(** A resolved query carries the clauses of the description it comes from. *)
Definition resolves (q : Internal) (rq : ResolvedQuery) : Prop :=
  rq_table rq = q_table q /\
  rq_columns rq = q_selection q /\
  rq_where rq = q_where q /\
  rq_orderBy rq = q_orderBy q /\
  rq_limit rq = match q_limit q with Some l => ls_limit l | None => None end /\
  rq_offset rq = match q_limit q with Some l => ls_offset l | None => None end.

(** Each join is made on a column that the query before it fetches as a
    join column. *)
Fixpoint wired (prev : ResolvedQuery) (joins : list ResolvedJoinItem) : Prop :=
  match joins with
  | [] => True
  | item :: rest =>
      rj_currentCol (ji_join item) ∈ rq_joinColumns prev /\
      rj_joinCol (ji_join item) ∈ rq_joinColumns (ji_query item) /\
      wired (ji_query item) rest
  end.

(** The last query of a resolved chain: the one the select on top is for. *)
Definition lastQuery (base : ResolvedQuery) (joins : list ResolvedJoinItem)
  : ResolvedQuery :=
  List.last (map ji_query joins) base.

End Chain.

(** The primary-key cells of a fetched row for a resolved query: the
    [keys] of [groupRows]. *)
Definition rowKeys (query : ResolvedQuery) (row : Row) : list (option cell) :=
  map (fun col => row !! col)
      (map (dotCol (rq_tableAlias query)) (rq_primaryColumns query)).

(** [group.rows.push(row)] on the group that has the keys [keys]; a group
    with other keys is left as it is. *)
Definition pushed (keys : list (option cell)) (row : Row) (g : Group) : Group :=
  if decide (g_keys g = keys)
  then {| g_keys := g_keys g; g_rows := g_rows g ++ [row] |}
  else g.

(** The groups of the rows [rows]: no two groups have the same keys, no
    group has a null key, every group holds, in the order they were fetched,
    the rows that have its keys, of which there is at least one, and every
    row without a null key has a group. *)
Definition grouped (query : ResolvedQuery) (rows : list Row) (gs : list Group) : Prop :=
  NoDup (map g_keys gs) /\
  Forall (fun g => includesNull (g_keys g) = false /\
                   g_rows g <> [] /\
                   g_rows g = filter (fun row => rowKeys query row = g_keys g) rows) gs /\
  (forall row, row ∈ rows -> hasNullKey query row = false ->
               rowKeys query row ∈ map g_keys gs).

(** ** More readings of the lowered query *)

Definition sel_where {W} (s : SelectStmt W) : option W :=
  match s with MkSelect _ _ w _ _ => w end.
Definition sel_limit {W} (s : SelectStmt W) : option LimitNode :=
  match s with MkSelect _ _ _ l _ => l end.
Definition sel_orderBy {W} (s : SelectStmt W) : option (list OrderingTermNode) :=
  match s with MkSelect _ _ _ _ o => o end.

(** The tables a select scans, with their aliases, innermost select first. *)
Fixpoint fromTables {W} (s : SelectStmt W) : list (string * string) :=
  let 'MkSelect _ from _ _ _ := s in
  match from with
  | FromTable t a => [(t, a)]
  | FromLeftJoin sub _ t a _ => fromTables sub ++ [(t, a)]
  end.

(** The selects of a lowered query, innermost first: the select of the
    first table, then one per join around it. *)
Fixpoint levels {W} (s : SelectStmt W) : list (SelectStmt W) :=
  let 'MkSelect _ from _ _ _ := s in
  match from with
  | FromTable _ _ => [s]
  | FromLeftJoin sub _ _ _ _ => levels sub ++ [s]
  end.

(** Every join condition compares a column that the joined sub-select
    returns with a column that the select itself returns for the joined
    table. *)
Fixpoint onScoped {W} (s : SelectStmt W) : Prop :=
  let 'MkSelect _ from _ _ _ := s in
  match from with
  | FromTable _ _ => True
  | FromLeftJoin sub _ _ _ on =>
      match on with
      | Equal (ColumnNamed l) (ColumnNamed r) =>
          l ∈ outputNames sub /\ r ∈ outputNames s /\ onScoped sub
      | _ => False
      end
  end.

(** What the select of one level holds for the resolved query of that
    level: its limit, its order, its where clause (over the parameter map as
    it stood when the level was lowered) and, last in its FROM, its table. *)
Definition placed `{E : Externals} (rq : ResolvedQuery) (s : SelectStmt WhereNode)
  : Prop :=
  sel_limit s = createLimit (rq_limit rq) (rq_offset rq) /\
  sel_orderBy s = createOrderBy (rq_orderBy rq) (rq_tableAlias rq) /\
  (exists m, sel_where s = fst (createWhere m (rq_where rq) (rq_tableAlias rq))) /\
  List.last (fromTables s) ("", "") = (rq_table rq, rq_tableAlias rq).

(** ** Caches that agree with the description *)

Section Coherence.
Context `{E : Externals}.

(** The caches of an object hold what its description resolves and lowers
    to. *)
Definition coherentObject (o : DatabaseTableQuery.Object) : Prop :=
  (forall r, DatabaseTableQuery.resolved o = Some r ->
             resolveInternal (q_schema (DatabaseTableQuery.priv o))
               (DatabaseTableQuery.priv o) None 0 = Return r) /\
  (forall st, DatabaseTableQuery.preparedStatement o = Some st ->
              exists r, DatabaseTableQuery.resolved o = Some r /\ st = prepare r).

Definition coherent (h : gmap nat DatabaseTableQuery.Object) : Prop :=
  forall ref o, h !! ref = Some o -> coherentObject o.

(** From [h] to [h'] nothing but the caches of [this] has changed. *)
Definition cachesOnly (this : nat) (h h' : gmap nat DatabaseTableQuery.Object) : Prop :=
  (forall ref, ref <> this -> h' !! ref = h !! ref) /\
  DatabaseTableQuery.priv <$> h' !! this = DatabaseTableQuery.priv <$> h !! this.

(** The field of the description that a builder call writes; a pipe starts a
    new description. *)
Inductive Field : Type := FSelection | FWhere | FLimit | FOrderBy.

Definition writes (b : DatabaseTableQuery.Builder) : option Field :=
  match b with
  | DatabaseTableQuery.BSelect _ => Some FSelection
  | DatabaseTableQuery.BWhere _ => Some FWhere
  | DatabaseTableQuery.BLimit _ _ => Some FLimit
  | DatabaseTableQuery.BOrderBy _ => Some FOrderBy
  | DatabaseTableQuery.BPipe _ _ _ _ => None
  end.

End Coherence.

(** ** The statement caches of [DatabaseTable] *)

(** [class DatabaseTable] (the second file of [tests/readme.test.ts]) keeps
    one prepared statement per kind of query and one per index. *)
Module DatabaseTable.

(** The keys of [QueriesCache]. *)
Inductive QueryName : Type :=
| insertName | deleteByKey | updateByKey | selectAll | findByKey | countAll.

#[global] Instance QueryName_eq_dec : EqDecision QueryName.
Proof. solve_decision. Defined.

(** [QueriesCache]: a statement or [null] under each key. *)
Definition QueriesCache : Type := QueryName -> option Statement.

(** The cache of a new table: every key [null]. *)
Definition emptyCache : QueriesCache := fun _ => None.

(** [getStatement(name, create)]: [create] runs when the slot is [null], and
    what it returns (a statement or, by its type, [null]) is stored. *)
Definition getStatement (cache : QueriesCache) (name : QueryName)
    (create : unit -> option Statement) : option Statement * QueriesCache :=
  match cache name with
  | None =>
      let cache' := fun n => if decide (n = name) then create tt else cache n in
      (cache' name, cache')
  | Some st => (Some st, cache)
  end.

(** [getIndexStatement(name, create)] on [indexQueriesCache], where a
    missing key reads as [undefined]. *)
Definition getIndexStatement (cache : gmap string Statement) (name : string)
    (create : unit -> Statement) : Statement * gmap string Statement :=
  match cache !! name with
  | None => let query := create tt in (query, <[name := query]> cache)
  | Some current => (current, cache)
  end.

End DatabaseTable.

(* ===================================================================== *)
(** * Properties *)
(* ===================================================================== *)

(** ** Cardinality *)

Lemma index_cons (r : value) (rest : list value) : index (r :: rest) 0 = r.
Proof. reflexivity. Qed.

(** C1 (as the code has it): [one] raises on zero and on two or more
    results and returns the single result otherwise; [maybeOne] raises on two
    or more, returns [null] on zero and otherwise the one result passed
    through [?? null]; [first] raises on zero and returns the first result
    otherwise; [maybeFirst] never raises, returns [null] on zero and otherwise
    the first result passed through [?? null]. *)
Theorem terminal_shapers (results : list value) :
  match results with
  | [] =>
      raises (Terminal.one results) /\
      Terminal.maybeOne results = Return VNull /\
      raises (Terminal.first results) /\
      Terminal.maybeFirst results = Return VNull
  | [r] =>
      Terminal.one results = Return r /\
      Terminal.maybeOne results = Return (nullish r VNull) /\
      Terminal.first results = Return r /\
      Terminal.maybeFirst results = Return (nullish r VNull)
  | r :: _ :: _ =>
      raises (Terminal.one results) /\
      raises (Terminal.maybeOne results) /\
      Terminal.first results = Return r /\
      Terminal.maybeFirst results = Return (nullish r VNull)
  end.
Proof.
  destruct results as [|r [|r' rest]]; cbn; repeat split; exact I.
Qed.

(** C1, as stated, fails: a query without a selection is shaped into
    [undefined] results, and [maybeOne] and [maybeFirst] turn that single
    result into [null]. *)
Lemma terminal_shapers_undefined_result :
  ~ (forall r : value, Terminal.maybeOne [r] = Return r) /\
  ~ (forall (r : value) rest, Terminal.maybeFirst (r :: rest) = Return r).
Proof.
  split; intros H.
  - specialize (H VUndefined). discriminate H.
  - specialize (H VUndefined []). discriminate H.
Qed.

(** C9, the kinds: what [transformJoin] does with the joined results of one
    group, by kind and by the number of results. *)
Theorem transformJoin_kinds (results : list value) :
  transformJoin results many = Return (VArr results) /\
  ~ raises (transformJoin results maybeFirst) /\
  match results with
  | [] =>
      raises (transformJoin results one) /\
      transformJoin results maybeOne = Return VNull /\
      raises (transformJoin results first) /\
      transformJoin results maybeFirst = Return VNull
  | [r] =>
      transformJoin results one = Return r /\
      transformJoin results maybeOne = Return (nullish r VNull) /\
      transformJoin results first = Return r /\
      transformJoin results maybeFirst = Return (nullish r VNull)
  | r :: _ :: _ =>
      raises (transformJoin results one) /\
      raises (transformJoin results maybeOne) /\
      transformJoin results first = Return r /\
      transformJoin results maybeFirst = Return (nullish r VNull)
  end.
Proof.
  destruct results as [|r [|r' rest]]; cbn; repeat split; auto.
Qed.

(** ** The error-threading combinators *)

Lemma obind_Return {A B} (m : outcome A) (k : A -> outcome B) (b : B) :
  obind m k = Return b -> exists a, m = Return a /\ k a = Return b.
Proof. destruct m as [a|e]; cbn; [eauto | discriminate]. Qed.

Lemma mapE_Forall2 {A B} (f : A -> outcome B) (xs : list A) (ys : list B) :
  mapE f xs = Return ys -> Forall2 (fun x y => f x = Return y) xs ys.
Proof.
  revert ys. induction xs as [|x rest IH]; intros ys Hmap; cbn in Hmap.
  - injection Hmap as <-. constructor.
  - apply obind_Return in Hmap as (y & Hy & Hmap).
    apply obind_Return in Hmap as (ys' & Hrest & Hret).
    injection Hret as <-. constructor; auto.
Qed.

Lemma mapE_raises {A B} (f : A -> outcome B) (xs : list A) (x : A) :
  x ∈ xs -> raises (f x) -> raises (mapE f xs).
Proof.
  induction 1 as [x rest | x x' rest _ IH]; intros Hx; cbn.
  - destruct (f x); [contradiction | exact I].
  - destruct (f x'); [| exact I]. cbn.
    specialize (IH Hx). destruct (mapE f rest); [contradiction | exact I].
Qed.

Lemma mapE_total {A B} (f : A -> outcome B) (xs : list A) :
  (forall x, x ∈ xs -> exists y, f x = Return y) ->
  exists ys, mapE f xs = Return ys /\ length ys = length xs.
Proof.
  induction xs as [|x rest IH]; intros Hall; cbn.
  - exists []. auto.
  - destruct (Hall x) as (y & ->); [left |]. cbn.
    destruct IH as (ys & -> & Hlen).
    { intros x' Hin. apply Hall. now right. }
    cbn. exists (y :: ys). cbn. auto.
Qed.

Section Shaping.
Context `{E : Externals}.

Lemma groupRows_join_step schema query join nextJoins (group : Group) (v : value) :
  (try result <~ ownFields schema query group in
   try joinResult <~ groupRows schema (ji_query join) nextJoins (g_rows group) in
   try joinContent <~ transformJoin joinResult (rj_kind (ji_join join)) in
   Return (mergeJoin query (rq_table (ji_query join)) result joinContent)) = Return v ->
  exists result joinResult joinContent,
    ownFields schema query group = Return result /\
    groupRows schema (ji_query join) nextJoins (g_rows group) = Return joinResult /\
    transformJoin joinResult (rj_kind (ji_join join)) = Return joinContent /\
    v = mergeJoin query (rq_table (ji_query join)) result joinContent.
Proof.
  intros H.
  apply obind_Return in H as (result & Hown & H).
  apply obind_Return in H as (joinResult & Hjoin & H).
  apply obind_Return in H as (joinContent & Hkind & H).
  exists result, joinResult, joinContent. repeat split; congruence.
Qed.

(** C9: during result building the kind of a join is enforced on the
    joined results of each parent group on its own.  A group whose joined
    results break the kind makes the build raise; when the build returns,
    every group carries [transformJoin] of its own joined results; and
    [transformJoin] raises for [one] on zero or several results, for
    [maybeOne] on several (null on zero), for [first] on zero, never for
    [maybeFirst] (first result or null), and returns the whole array
    unchanged for [many]. *)
Theorem join_kind_enforced_per_group schema query join nextJoins rows :
  let kind := rj_kind (ji_join join) in
  (forall group joinResult,
      group ∈ groupsOf query rows ->
      groupRows schema (ji_query join) nextJoins (g_rows group) = Return joinResult ->
      raises (transformJoin joinResult kind) ->
      raises (groupRows schema query (join :: nextJoins) rows)) /\
  (forall vs,
      groupRows schema query (join :: nextJoins) rows = Return vs ->
      Forall2 (fun group v =>
                 exists result joinResult joinContent,
                   ownFields schema query group = Return result /\
                   groupRows schema (ji_query join) nextJoins (g_rows group)
                     = Return joinResult /\
                   transformJoin joinResult kind = Return joinContent /\
                   v = mergeJoin query (rq_table (ji_query join)) result joinContent)
              (groupsOf query rows) vs) /\
  (forall results,
      transformJoin results many = Return (VArr results) /\
      ~ raises (transformJoin results maybeFirst) /\
      transformJoin results maybeFirst = Return (nullish (index results 0) VNull) /\
      (length results = 0 -> raises (transformJoin results one)) /\
      (1 < length results -> raises (transformJoin results one)) /\
      (1 < length results -> raises (transformJoin results maybeOne)) /\
      (length results = 0 -> transformJoin results maybeOne = Return VNull) /\
      (length results = 0 -> raises (transformJoin results first))).
Proof.
  intros kind. split; [| split].
  - intros group joinResult Hin Hjoin Hraise.
    cbn [groupRows]. apply mapE_raises with (x := group); [exact Hin |].
    destruct (ownFields schema query group); cbn; [| exact I].
    rewrite Hjoin. cbn. fold kind.
    destruct (transformJoin joinResult kind); [contradiction | exact I].
  - intros vs Hret. cbn [groupRows] in Hret.
    apply mapE_Forall2 in Hret.
    eapply Forall2_impl; [exact Hret |].
    intros group v Hstep. now apply groupRows_join_step.
  - intros results.
    pose proof (transformJoin_kinds results) as (Hmany & Hnever & Hcases).
    split; [exact Hmany |]. split; [exact Hnever |].
    destruct results as [|r [|r' rest]]; cbn in *; repeat split;
      try (intros; lia); try (intros; exact I); auto.
Qed.

(** *** Rows with a null key *)

Lemma addRow_null_key (query : ResolvedQuery) (groups : list Group) (row : Row) :
  hasNullKey query row = true ->
  addRow (map (dotCol (rq_tableAlias query)) (rq_primaryColumns query)) groups row
  = groups.
Proof. unfold addRow, hasNullKey. now intros ->. Qed.

Lemma fold_addRow_filter (query : ResolvedQuery) (rows : list Row) (acc : list Group) :
  let colsKey := map (dotCol (rq_tableAlias query)) (rq_primaryColumns query) in
  fold_left (addRow colsKey) rows acc
  = fold_left (addRow colsKey)
      (List.filter (fun row => negb (hasNullKey query row)) rows) acc.
Proof.
  intros colsKey. revert acc.
  induction rows as [|row rest IH]; intros acc; [reflexivity |].
  cbn [fold_left List.filter].
  destruct (hasNullKey query row) eqn:Hnull; cbn [negb].
  - subst colsKey. rewrite addRow_null_key by exact Hnull. apply IH.
  - cbn [fold_left]. apply IH.
Qed.

Lemma groupsOf_filter (query : ResolvedQuery) (rows : list Row) :
  groupsOf query rows
  = groupsOf query (List.filter (fun row => negb (hasNullKey query row)) rows).
Proof. unfold groupsOf. apply fold_addRow_filter. Qed.

Lemma filter_all_null (query : ResolvedQuery) (rows : list Row) :
  Forall (fun row => hasNullKey query row = true) rows ->
  List.filter (fun row => negb (hasNullKey query row)) rows = [].
Proof.
  induction 1 as [|row rest Hrow _ IH]; [reflexivity |].
  cbn. now rewrite Hrow.
Qed.

Lemma hasNullKey_every (query : ResolvedQuery) (row : Row) :
  rq_primaryColumns query <> [] ->
  (forall col, col ∈ rq_primaryColumns query ->
               row !! dotCol (rq_tableAlias query) col = Some CNull) ->
  hasNullKey query row = true.
Proof.
  unfold hasNullKey. destruct (rq_primaryColumns query) as [|col rest]; [congruence |].
  intros _ Hall. cbn. rewrite (Hall col) by left.
  now rewrite bool_decide_eq_true_2.
Qed.

Lemma groupRows_groups schema query joins rows :
  groupRows schema query joins rows
  = mapE (fun group =>
            try result <~ ownFields schema query group in
            match joins with
            | [] =>
                match rq_columns query with
                | None => Return VUndefined
                | Some _ => Return (VObj result)
                end
            | join :: nextJoins =>
                try joinResult <~ groupRows schema (ji_query join) nextJoins
                                    (g_rows group) in
                try joinContent <~ transformJoin joinResult (rj_kind (ji_join join)) in
                Return (mergeJoin query (rq_table (ji_query join)) result joinContent)
            end)
         (groupsOf query rows).
Proof. destruct joins; reflexivity. Qed.

Lemma hasNullKey_some (query : ResolvedQuery) (row : Row) (col : string) :
  col ∈ rq_primaryColumns query ->
  row !! dotCol (rq_tableAlias query) col = Some CNull ->
  hasNullKey query row = true.
Proof.
  unfold hasNullKey, includesNull. intros Hin Hnull.
  apply existsb_exists. exists (Some CNull). split.
  - rewrite <- Hnull. apply in_map_iff.
    exists (dotCol (rq_tableAlias query) col). split; [reflexivity |].
    apply in_map. now apply list_elem_of_In.
  - now apply bool_decide_eq_true_2.
Qed.

(** C4 (as the code has it): a fetched row in which some primary-key cell
    of a table is null contributes nothing to the results shaped for that
    table, which covers the row of a left join without a match, where every
    such cell is null.  When that leaves a parent group without joined
    results, the joined field is the empty array for [many], null for
    [maybeOne] and [maybeFirst] and an error for [one] and [first].  For the
    sample data, the users piped to their link rows give four results, the
    fourth user with an empty array; and the left join of the tasks-by-user
    subquery onto the users, shaped by its plan, gives four rows, the fourth
    user with [null] for tasks. *)
Theorem left_join_null_rows schema (query : ResolvedQuery) joins :
  (forall rows,
      groupRows schema query joins rows
      = groupRows schema query joins
          (List.filter (fun row => negb (hasNullKey query row)) rows)) /\
  (forall row,
      rq_primaryColumns query <> [] ->
      (forall col, col ∈ rq_primaryColumns query ->
                   row !! dotCol (rq_tableAlias query) col = Some CNull) ->
      hasNullKey query row = true) /\
  (forall rows,
      Forall (fun row => hasNullKey query row = true) rows ->
      groupRows schema query joins rows = Return []) /\
  (transformJoin [] many = Return (VArr []) /\
   transformJoin [] maybeOne = Return VNull /\
   transformJoin [] maybeFirst = Return VNull /\
   raises (transformJoin [] one) /\
   raises (transformJoin [] first)) /\
  @groupRows (Sample.externals []) Sample.schema Sample.usersQuery
    [Sample.linksJoin many] Sample.leftJoinRows
  = Return
      [VObj [("id", VNum 1); ("name", VStr "John Doe");
             ("joinUsersTasks",
              VArr [VObj [("task_id", VNum 1)]; VObj [("task_id", VNum 2)]])];
       VObj [("id", VNum 2); ("name", VStr "Jane Doe");
             ("joinUsersTasks", VArr [VObj [("task_id", VNum 3)]])];
       VObj [("id", VNum 3); ("name", VStr "Jack Doe");
             ("joinUsersTasks", VArr [VObj [("task_id", VNum 1)]])];
       VObj [("id", VNum 4); ("name", VStr "Jill Doe");
             ("joinUsersTasks", VArr [])]] /\
  exists john jane jack,
    Scenario.execAll Scenario.usersWithTasksPlan
      (Scenario.usersWithTasks Scenario.users Scenario.joinUsersTasks Scenario.tasks)
    = Return
        [VObj [("id", VStr "1"); ("name", VStr "John Doe"); ("tasks", VArr john)];
         VObj [("id", VStr "2"); ("name", VStr "Jane Doe"); ("tasks", VArr jane)];
         VObj [("id", VStr "3"); ("name", VStr "Jack Doe"); ("tasks", VArr jack)];
         VObj [("id", VStr "4"); ("name", VStr "Jill Doe"); ("tasks", VNull)]].
Proof.
  split; [| split; [| split; [| split; [| split]]]].
  - intros rows. rewrite !groupRows_groups.
    now rewrite (groupsOf_filter query rows) at 1.
  - intros row. apply hasNullKey_every.
  - intros rows Hall. rewrite groupRows_groups, groupsOf_filter.
    now rewrite (filter_all_null query rows Hall).
  - cbn. auto.
  - vm_compute. reflexivity.
  - do 3 eexists. vm_compute. reflexivity.
Qed.

End Shaping.

(** A left-join row without a match is dropped from the joined results. *)
Lemma left_join_null_rows_witness :
  @groupRows (Sample.externals []) Sample.schema Sample.linksQuery []
    [Sample.userRow 4 "Jill Doe" (CNull, CNull)] = Return [].
Proof.
  apply (proj1 (proj2 (proj2
           (@left_join_null_rows (Sample.externals []) Sample.schema
              Sample.linksQuery [])))).
  repeat constructor.
Defined.

(** C4, as stated, fails twice on the code: the joined field of a parent
    whose only row has every joined key null is the empty array under [many],
    not null; and a row with one null key cell out of two is dropped, not
    shaped. *)
Lemma left_join_many_is_empty_array :
  let unmatched := Sample.userRow 4 "Jill Doe" (CNull, CNull) in
  let halfNull := Sample.userRow 1 "John Doe" (CInt 1, CNull) in
  ((forall col, col ∈ rq_primaryColumns Sample.linksQuery ->
                unmatched !! dotCol "_0" col = Some CNull) /\
   exists fields,
     @groupRows (Sample.externals []) Sample.schema Sample.usersQuery
       [Sample.linksJoin many] [unmatched] = Return [VObj fields] /\
     objGet fields "joinUsersTasks" = Some (VArr []) /\
     objGet fields "joinUsersTasks" <> Some VNull) /\
  (halfNull !! "_0.user_id" = Some (CInt 1) /\
   @groupRows (Sample.externals []) Sample.schema Sample.linksQuery [] [halfNull]
   = Return []).
Proof.
  cbv zeta. split; [split |].
  - intros col Hin. apply list_elem_of_In in Hin.
    destruct Hin as [<- | [<- | []]]; vm_compute; reflexivity.
  - eexists. split; [vm_compute; reflexivity |]. split; [reflexivity | discriminate].
  - split; vm_compute; reflexivity.
Qed.

(** A user with two links breaks the kind [one] of the join. *)
Lemma join_kind_enforced_per_group_witness :
  raises (@groupRows (Sample.externals []) Sample.schema Sample.usersQuery
            [Sample.linksJoin one] Sample.leftJoinRows).
Proof.
  apply (proj1 (@join_kind_enforced_per_group (Sample.externals []) Sample.schema
                  Sample.usersQuery (Sample.linksJoin one) [] Sample.leftJoinRows))
    with (group := {| g_keys := [Some (CInt 1)];
                      g_rows := [Sample.userRow 1 "John Doe" (CInt 1, CInt 1);
                                 Sample.userRow 1 "John Doe" (CInt 1, CInt 2)] |})
         (joinResult := [VObj [("task_id", VNum 1)]; VObj [("task_id", VNum 2)]]).
  - vm_compute. left.
  - vm_compute. reflexivity.
  - vm_compute. exact I.
Defined.

(** ** The builders *)

Section Builders.
Context `{E : Externals}.
Import DatabaseTableQuery.

Lemma new_fresh (h : Heap) (internal : Internal) :
  h !! fst (new h internal) = None.
Proof. cbn. apply not_elem_of_dom, is_fresh. Qed.

Lemma new_frame (h : Heap) (internal : Internal) (r : nat) (x : Object) :
  h !! r = Some x -> snd (new h internal) !! r = Some x.
Proof.
  intros Hr. cbn. rewrite lookup_insert_ne; [exact Hr |].
  intros Heq. pose proof (new_fresh h internal) as Hfresh. cbn in Hfresh.
  rewrite Heq in Hfresh. congruence.
Qed.

Lemma new_lookup (h : Heap) (internal : Internal) :
  snd (new h internal) !! fst (new h internal)
  = Some {| priv := internal; preparedStatement := None; resolved := None |}.
Proof. cbn. apply lookup_insert_eq. Qed.

Lemma runBuilder_new (h : Heap) (this : nat) (o : Object) (b : Builder) :
  h !! this = Some o -> runBuilder h this b = Some (new h (built (priv o) b)).
Proof.
  intros Hthis.
  destruct b as [selection | w | n offset | args | [] c t j]; cbn;
    unfold select, where_, limit, orderBy, pipe, pipeOne, pipeMaybeOne, pipeFirst,
      pipeMaybeFirst, pipeInternal; now rewrite Hthis.
Qed.

(** C5: a builder call on a live receiver returns a reference that was not
    in use, to an object with empty caches; every object that existed, the
    receiver among them, is afterwards what it was, field for field. *)
Theorem builders_do_not_mutate (h : Heap) (this : nat) (o : Object) (b : Builder) :
  h !! this = Some o ->
  exists ref h',
    runBuilder h this b = Some (ref, h') /\
    h !! ref = None /\
    ref <> this /\
    h' !! ref = Some {| priv := built (priv o) b;
                        preparedStatement := None; resolved := None |} /\
    h' !! this = Some o /\
    (forall r x, h !! r = Some x -> h' !! r = Some x).
Proof.
  intros Hthis.
  exists (fst (new h (built (priv o) b))), (snd (new h (built (priv o) b))).
  split; [| split; [| split; [| split; [| split]]]].
  - rewrite (runBuilder_new h this o b Hthis). now destruct (new h _).
  - apply new_fresh.
  - intros Heq. pose proof (new_fresh h (built (priv o) b)) as Hfresh.
    rewrite Heq in Hfresh. congruence.
  - apply new_lookup.
  - now apply new_frame.
  - intros r x. apply new_frame.
Qed.

(** C2 (as the code has it): [.where(p2)] on the result of [.where(p1)]
    gives an object whose description is that of the first receiver with
    the where record [p2]: [p1] is replaced, not conjoined. *)
Theorem where_replaces (h : Heap) (this : nat) (o : Object) (p1 p2 : WhereRec) :
  h !! this = Some o ->
  exists q1 h1 q2 h2,
    where_ h this p1 = Some (q1, h1) /\
    where_ h1 q1 p2 = Some (q2, h2) /\
    (priv <$> h2 !! q2) = Some (withWhere (priv o) p2) /\
    (q_where <$> (priv <$> h2 !! q2)) = Some (Some p2).
Proof.
  intros Hthis. unfold where_. rewrite Hthis. cbn [mbind option_bind].
  set (n1 := new h (withWhere (priv o) p1)).
  pose proof (new_lookup h (withWhere (priv o) p1)) as Hq1. fold n1 in Hq1.
  exists (fst n1), (snd n1). rewrite Hq1. cbn [mbind option_bind priv].
  set (n2 := new (snd n1) _).
  exists (fst n2), (snd n2).
  split; [now destruct n1 |]. split; [now destruct n2 |].
  subst n2. rewrite new_lookup. cbn.
  destruct (priv o). cbn. auto.
Qed.

End Builders.

(** A [select] on a fresh [users] query. *)
Lemma builders_do_not_mutate_witness :
  let h := snd (DatabaseTableQuery.create ∅ Sample.schema "users") in
  exists ref h',
    DatabaseTableQuery.runBuilder h 0 (DatabaseTableQuery.BSelect ["id"]) = Some (ref, h') /\
    h !! ref = None /\
    ref <> 0 /\
    h' !! ref
    = Some {| DatabaseTableQuery.priv :=
                MkInternal Sample.schema "users" (Some ["id"]) None None None None;
              DatabaseTableQuery.preparedStatement := None;
              DatabaseTableQuery.resolved := None |} /\
    h' !! 0
    = Some {| DatabaseTableQuery.priv :=
                MkInternal Sample.schema "users" None None None None None;
              DatabaseTableQuery.preparedStatement := None;
              DatabaseTableQuery.resolved := None |} /\
    (forall r x, h !! r = Some x -> h' !! r = Some x).
Proof.
  intros h.
  apply (@builders_do_not_mutate (Sample.externals []) h 0
           {| DatabaseTableQuery.priv :=
                MkInternal Sample.schema "users" None None None None None;
              DatabaseTableQuery.preparedStatement := None;
              DatabaseTableQuery.resolved := None |}
           (DatabaseTableQuery.BSelect ["id"])).
  vm_compute. reflexivity.
Defined.

(** Two [where] calls in a row on a fresh [users] query. *)
Lemma where_replaces_witness :
  let h := snd (DatabaseTableQuery.create ∅ Sample.schema "users") in
  exists q1 h1 q2 h2,
    DatabaseTableQuery.where_ h 0 [("id", VNum 1)] = Some (q1, h1) /\
    DatabaseTableQuery.where_ h1 q1 [("name", VStr "Jane Doe")] = Some (q2, h2) /\
    (DatabaseTableQuery.priv <$> h2 !! q2)
    = Some (MkInternal Sample.schema "users" None (Some [("name", VStr "Jane Doe")])
              None None None) /\
    (q_where <$> (DatabaseTableQuery.priv <$> h2 !! q2))
    = Some (Some [("name", VStr "Jane Doe")]).
Proof.
  intros h.
  apply (@where_replaces (Sample.externals []) h 0
           {| DatabaseTableQuery.priv :=
                MkInternal Sample.schema "users" None None None None None;
              DatabaseTableQuery.preparedStatement := None;
              DatabaseTableQuery.resolved := None |}
           [("id", VNum 1)] [("name", VStr "Jane Doe")]).
  vm_compute. reflexivity.
Defined.

(** C2, as stated, fails: after [.where({id: 1}).where({name: "Jane Doe"})]
    the where clause holds of Jane, whose id is 2 and whom the first
    predicate rejects. *)
Lemma where_is_not_a_conjunction :
  ~ (forall (h : gmap nat (@DatabaseTableQuery.Object (Sample.externals []))) this o p1 p2
            q1 h1 q2 h2 o2 row,
        h !! this = Some o ->
        DatabaseTableQuery.where_ h this p1 = Some (q1, h1) ->
        DatabaseTableQuery.where_ h1 q1 p2 = Some (q2, h2) ->
        h2 !! q2 = Some o2 ->
        (whereClauseHolds (q_where (DatabaseTableQuery.priv o2)) row
         <-> whereHolds p1 row /\ whereHolds p2 row)).
Proof.
  intros Hclaim.
  set (E := Sample.externals []).
  set (h := snd (@DatabaseTableQuery.create E ∅ Sample.schema "users")).
  set (jane := list_to_map [("id", VNum 2); ("name", VStr "Jane Doe")] : gmap string value).
  specialize (Hclaim h 0 _ [("id", VNum 1)] [("name", VStr "Jane Doe")]
                _ _ _ _ _ jane eq_refl eq_refl eq_refl eq_refl).
  destruct Hclaim as [Hconj _].
  destruct Hconj as [Hid _].
  - cbn. constructor; [vm_compute; reflexivity | constructor].
  - inversion Hid as [| cv rest Hlookup _]. vm_compute in Hlookup. discriminate Hlookup.
Qed.

(** ** Emission *)

Section Emission.
Context `{E : Externals}.
Import DatabaseTableQuery.

Lemma getResolved_cached (h : Heap) (this : nat) (r : Resolved) (h1 : Heap) :
  getResolved h this = (Return r, h1) ->
  exists o, h1 !! this = Some o /\ resolved o = Some r /\
            (forall o0, h !! this = Some o0 -> priv o = priv o0 /\
                        preparedStatement o = preparedStatement o0).
Proof.
  unfold getResolved. destruct (h !! this) as [o|] eqn:Hthis; [| discriminate].
  destruct (resolved o) as [r0|] eqn:Hres.
  - intros [= <- <-]. exists o. split; [exact Hthis |]. split; [exact Hres |].
    intros o0 [= <-]. auto.
  - destruct (resolveInternal _ _ _ _) as [r0|e]; [| discriminate].
    intros [= <- <-]. eexists. rewrite lookup_insert_eq.
    split; [reflexivity |]. split; [reflexivity |].
    intros o0 [= <-]. auto.
Qed.

Lemma getResolved_Throw (h : Heap) (this : nat) (e : error) (h1 : Heap) :
  getResolved h this = (Throw e, h1) -> h1 = h.
Proof.
  unfold getResolved. destruct (h !! this) as [o|]; [| congruence].
  destruct (resolved o); [congruence |].
  destruct (resolveInternal _ _ _ _); congruence.
Qed.

Lemma getResolved_again (h : Heap) (this : nat) :
  getResolved (snd (getResolved h this)) this = getResolved h this.
Proof.
  destruct (getResolved h this) as [[r|e] h1] eqn:Hfirst; cbn.
  - destruct (getResolved_cached _ _ _ _ Hfirst) as (o & Ho & Hres & _).
    unfold getResolved. now rewrite Ho, Hres.
  - pose proof (getResolved_Throw _ _ _ _ Hfirst) as ->. exact Hfirst.
Qed.




(** The statement and the plan of a pristine object depend on its
    description alone. *)
Lemma emission_pristine (h : Heap) (this : nat) (q : Internal) :
  h !! this = Some (pristine q) ->
  fst (emission h this)
  = (try r <~ resolveInternal (q_schema q) q None 0 in Return (prepare r, r)).
Proof.
  intros Hthis. unfold emission, getPreparedStatement. rewrite Hthis. cbn.
  unfold getResolved at 1. rewrite Hthis. cbn.
  destruct (resolveInternal (q_schema q) q None 0) as [r|e]; cbn; [| reflexivity].
  unfold getResolved. rewrite lookup_alter_eq, lookup_insert_eq. reflexivity.
Qed.



End Emission.


(** ** The result columns of the lowered query *)

Section ResultColumns.
Context `{E : Externals}.

Lemma dedupe_elem (xs : list string) (x : string) : x ∈ dedupe xs <-> x ∈ xs.
Proof.
  induction xs as [|y rest IH]; cbn; [reflexivity |].
  rewrite !elem_of_cons, list_elem_of_filter, IH.
  destruct (decide (x = y)); intuition.
Qed.

Lemma dedupe_NoDup (xs : list string) : NoDup (dedupe xs).
Proof.
  induction xs as [|y rest IH]; cbn; constructor.
  - rewrite list_elem_of_filter. intuition.
  - now apply NoDup_filter.
Qed.

Lemma filterNotNullRc_app_Some {A B} (f : A -> B) (xs : list A) (last : option B) :
  filterNotNullRc (map (fun x => Some (f x)) xs ++ [last])
  = map f xs ++ match last with Some y => [y] | None => [] end.
Proof.
  unfold filterNotNullRc. induction xs as [|x rest IH]; cbn.
  - now destruct last.
  - now rewrite IH.
Qed.

Lemma resultColumns_eq (m : ParamsMap) (resolved : ResolvedQuery) (join : option JoinArg) :
  sel_resultColumns (fst (resolvedQueryToSelect m resolved join))
  = map (ownResultColumn resolved) (ownColumns resolved)
    ++ match join with
       | Some j => [RcTableStar (rq_tableAlias (ja_query j))]
       | None => []
       end.
Proof.
  unfold resolvedQueryToSelect. cbn [fst sel_resultColumns].
  rewrite (filterNotNullRc_app_Some (ownResultColumn resolved)).
  now destruct join.
Qed.

Lemma outputNames_own (m : ParamsMap) (resolved : ResolvedQuery) (join : option JoinArg)
    (col : string) :
  col ∈ ownColumns resolved ->
  dotCol (rq_tableAlias resolved) col
    ∈ outputNames (fst (resolvedQueryToSelect m resolved join)).
Proof.
  intros Hcol. apply list_elem_of_In.
  unfold resolvedQueryToSelect. cbn [fst outputNames].
  rewrite (filterNotNullRc_app_Some (ownResultColumn resolved)).
  apply in_flat_map. exists (ownResultColumn resolved col). split.
  - apply in_or_app. left. apply in_map. now apply list_elem_of_In.
  - now left.
Qed.

Lemma outputNames_star (m : ParamsMap) (resolved : ResolvedQuery) (j : JoinArg)
    (name : string) :
  name ∈ outputNames (ja_select j) ->
  name ∈ outputNames (fst (resolvedQueryToSelect m resolved (Some j))).
Proof.
  intros Hname. apply list_elem_of_In.
  unfold resolvedQueryToSelect. cbn [fst outputNames].
  rewrite (filterNotNullRc_app_Some (ownResultColumn resolved)).
  apply in_flat_map. exists (RcTableStar (rq_tableAlias (ja_query j))). split.
  - apply in_or_app. right. now left.
  - cbn [createFrom]. rewrite String.eqb_refl. now apply list_elem_of_In.
Qed.

Lemma primary_own (resolved : ResolvedQuery) (col : string) :
  col ∈ rq_primaryColumns resolved -> col ∈ ownColumns resolved.
Proof.
  intros Hcol. unfold ownColumns. apply dedupe_elem.
  rewrite !elem_of_app. auto.
Qed.

Lemma lowerJoin_keysPresent (joins : list ResolvedJoinItem) :
  forall (seen : list ResolvedQuery) m prev node,
    keysPresent seen node ->
    keysPresent (seen ++ map ji_query joins)
      (snd (fold_left lowerJoin joins (m, prev, node))).
Proof.
  induction joins as [|item rest IH]; intros seen m prev node Hseen;
    cbn [fold_left map].
  - now rewrite app_nil_r.
  - replace (seen ++ ji_query item :: map ji_query rest)
      with ((seen ++ [ji_query item]) ++ map ji_query rest)
      by now rewrite <- app_assoc.
    set (j := {| ja_join := ji_join item; ja_query := prev; ja_select := node |}).
    change (lowerJoin (m, prev, node) item)
      with (snd (resolvedQueryToSelect m (ji_query item) (Some j)), ji_query item,
            fst (resolvedQueryToSelect m (ji_query item) (Some j))).
    apply IH. intros q col Hq Hcol.
    apply elem_of_app in Hq as [Hq | Hq].
    + apply outputNames_star. subst j. cbn [ja_select]. now apply Hseen.
    + apply list_elem_of_singleton in Hq as ->.
      apply outputNames_own. now apply primary_own.
Qed.

(** C10 (as the code has it): the result columns of the select built for
    a resolved query are the deduplicated concatenation of its selected
    columns, its join columns and the primary-key columns of its table, each
    aliased ["<tableAlias>.<column>"], followed, when the query is joined
    onto a previous one, by a star over the previous select.  Hence the
    primary-key cells of the base table and of every joined table are
    columns of the fetched rows. *)
Theorem result_columns (m : ParamsMap) (resolved : ResolvedQuery) (join : option JoinArg) :
  sel_resultColumns (fst (resolvedQueryToSelect m resolved join))
  = map (fun col => RcExpr (Column (rq_tableAlias resolved) col)
                           (rq_tableAlias resolved +:+ "." +:+ col))
        (dedupe (default [] (rq_columns resolved)
                 ++ rq_joinColumns resolved ++ rq_primaryColumns resolved))
    ++ match join with
       | Some j => [RcTableStar (rq_tableAlias (ja_query j))]
       | None => []
       end /\
  (forall xs, NoDup (dedupe xs) /\ forall x, x ∈ dedupe xs <-> x ∈ xs) /\
  (forall (r : Resolved) q col,
      q ∈ fst r :: map ji_query (snd r) ->
      col ∈ rq_primaryColumns q ->
      (rq_tableAlias q +:+ "." +:+ col) ∈ outputNames (fst (lowerResolved r))).
Proof.
  split; [apply resultColumns_eq |]. split.
  - intros xs. split; [apply dedupe_NoDup | apply dedupe_elem].
  - intros [base joins] q col Hq Hcol. unfold lowerResolved. cbn [fst snd] in *.
    pose proof (lowerJoin_keysPresent joins [base]
                  (snd (resolvedQueryToSelect [] base None)) base
                  (fst (resolvedQueryToSelect [] base None))) as Hall.
    destruct (fold_left lowerJoin joins _) as [[m' prev'] node'] eqn:Hfold.
    cbn [snd fst] in *. apply (Hall) with (q := q); [| exact Hq | exact Hcol].
    intros q0 col0 Hq0 Hcol0. apply list_elem_of_singleton in Hq0 as ->.
    apply outputNames_own. now apply primary_own.
Qed.

End ResultColumns.

(** C10, as stated, fails for a joined query: the select built for the link
    rows joined onto the users ends with the star [_1.*]. *)
Lemma joined_select_ends_with_star :
  ~ (forall (m : ParamsMap) (resolved : ResolvedQuery)
            (join : option (@JoinArg (Sample.externals []))),
        sel_resultColumns (fst (resolvedQueryToSelect m resolved join))
        = map (fun col => RcExpr (Column (rq_tableAlias resolved) col)
                                 (rq_tableAlias resolved +:+ "." +:+ col))
              (dedupe (default [] (rq_columns resolved)
                       ++ rq_joinColumns resolved ++ rq_primaryColumns resolved))).
Proof.
  intros Hclaim.
  specialize (Hclaim [] Sample.linksQuery
                (Some {| ja_join := ji_join (Sample.linksJoin many);
                         ja_query := Sample.usersQuery;
                         ja_select := fst (resolvedQueryToSelect [] Sample.usersQuery None) |})).
  vm_compute in Hclaim. discriminate Hclaim.
Qed.

(** The key cells of the link rows are fetched although only [task_id] is
    selected. *)
Lemma result_columns_witness :
  "_0.user_id"
    ∈ outputNames (fst (@lowerResolved (Sample.externals [])
                          (Sample.usersQuery, [Sample.linksJoin many]))).
Proof.
  apply (proj2 (proj2 (@result_columns (Sample.externals []) [] Sample.usersQuery None))
           (Sample.usersQuery, [Sample.linksJoin many]) Sample.linksQuery "user_id").
  - apply list_elem_of_In. cbn. auto.
  - apply list_elem_of_In. cbn. auto.
Defined.

(** ** Externals and their parameter names *)

Module EmitterFacts.
Import Emitter.
















End EmitterFacts.



(** ** Common table expressions *)

Module CteFacts.
Import Cte.
























End CteFacts.




(** The emissions the tests record, as the model prints them: the join of
    the plain scan of [tasks] is inline; the left join of [tasksByUserId], the
    [notInSubquery] operand and the [queryFrom] operand are CTEs. *)
Lemma recorded_emissions :
  Cte.emit Cte.leftJoinStore 2
  = {| Cte.withs := [];
       Cte.root := {| Cte.b_query := 2;
                      Cte.b_refs := [(Cte.AtJoin false, Cte.Inline 1)] |};
       Cte.inlines := [{| Cte.b_query := 1; Cte.b_refs := [] |}] |} /\
  Cte.emit Cte.leftJoinStore 3
  = {| Cte.withs := [{| Cte.b_query := 2;
                        Cte.b_refs := [(Cte.AtJoin false, Cte.Inline 1)] |}];
       Cte.root := {| Cte.b_query := 3;
                      Cte.b_refs := [(Cte.AtJoin true, Cte.ByName 2)] |};
       Cte.inlines := [{| Cte.b_query := 1; Cte.b_refs := [] |}] |} /\
  Cte.emit Cte.notInStore 1
  = {| Cte.withs := [{| Cte.b_query := 0; Cte.b_refs := [] |}];
       Cte.root := {| Cte.b_query := 1;
                      Cte.b_refs := [(Cte.AtInSubquery true, Cte.ByName 0)] |};
       Cte.inlines := [] |} /\
  Cte.emit Cte.queryFromStore 1
  = {| Cte.withs := [{| Cte.b_query := 0; Cte.b_refs := [] |}];
       Cte.root := {| Cte.b_query := 1;
                      Cte.b_refs := [(Cte.AtSource true, Cte.ByName 0)] |};
       Cte.inlines := [] |} /\
  Cte.liftedBySpec (fst (Cte.collect Cte.leftJoinStore 3)) 2 = false.
Proof. repeat split; vm_compute; reflexivity. Qed.

(** ** Users with their tasks *)

Module ScenarioFacts.
Import Scenario.

Lemma intoGroup_keys (key : value) (row : SqlRow) (groups : list (value * list SqlRow))
    (g : value * list SqlRow) :
  g ∈ intoGroup key row groups -> fst g = key \/ exists g', g' ∈ groups /\ fst g = fst g'.
Proof.
  induction groups as [|[k rows] rest IH]; cbn [intoGroup].
  - intros Hg. apply list_elem_of_singleton in Hg as ->. now left.
  - destruct (sqlEqual k key).
    + intros Hg. right. apply elem_of_cons in Hg as [-> | Hg].
      * exists (k, rows). split; [left | reflexivity].
      * exists g. split; [now right | reflexivity].
    + intros Hg. apply elem_of_cons in Hg as [-> | Hg].
      * right. exists (k, rows). split; [left | reflexivity].
      * destruct (IH Hg) as [Hkey | (g' & Hin & Heq)]; [now left | right].
        exists g'. split; [now right | exact Heq].
Qed.

Lemma groupBy_keys (key : SqlRow -> value) (rows : list SqlRow) :
  forall (groups : list (value * list SqlRow)) (g : value * list SqlRow),
    g ∈ fold_left (fun groups row => intoGroup (key row) row groups) rows groups ->
    (exists row, row ∈ rows /\ fst g = key row)
    \/ exists g', g' ∈ groups /\ fst g = fst g'.
Proof.
  induction rows as [|row rest IH]; intros groups g Hg; cbn [fold_left] in Hg.
  - right. eauto.
  - destruct (IH _ _ Hg) as [(row' & Hin & Heq) | (g' & Hin & Heq)].
    + left. exists row'. split; [now right | exact Heq].
    + destruct (intoGroup_keys _ _ _ _ Hin) as [Hkey | (g'' & Hin' & Heq')].
      * left. exists row. split; [left | congruence].
      * right. exists g''. split; [exact Hin' | congruence].
Qed.

Lemma innerJoin_rows (l r : list SqlRow) (on : SqlRow -> SqlRow -> bool) (row : SqlRow) :
  row ∈ innerJoin l r on ->
  exists lrow rrow, lrow ∈ l /\ rrow ∈ r /\ on lrow rrow = true /\ row = lrow ++ rrow.
Proof.
  intros Hrow. apply list_elem_of_In in Hrow. unfold innerJoin in Hrow.
  apply in_flat_map in Hrow as (lrow & Hl & Hrow).
  apply in_map_iff in Hrow as (rrow & <- & Hr).
  apply filter_In in Hr as [Hr Hon].
  exists lrow, rrow. repeat split; auto; now apply list_elem_of_In.
Qed.

End ScenarioFacts.

(** C6: for the sample link rows [(1,1), (1,2), (2,3), (3,1)] the query that
    inner-joins [joinUsersTasks] with [tasks], groups by [user_id] and
    projects the JSON array of the tasks returns three rows, for the users 1,
    2 and 3, the first with the tasks 1 and 2 in that order; and whatever the
    tables hold, every row it returns is for a user that has a link row, so
    user 4 has none. *)
Theorem users_with_their_tasks :
  (forall (pairs : list (string * string)) (taskTable : list Scenario.SqlRow)
          (res : Scenario.SqlRow),
      res ∈ Scenario.tasksByUserId
              (map (fun p => Scenario.link (fst p) (snd p)) pairs) taskTable ->
      exists p, p ∈ pairs /\ Scenario.column res "userId" = VStr (fst p)) /\
  Scenario.execAll Scenario.tasksByUserIdPlan
    (Scenario.tasksByUserId Scenario.joinUsersTasks Scenario.tasks)
  = Return
      [VObj [("userId", VStr "1");
             ("tasks",
              VArr [VObj [("id", VStr "1"); ("title", VStr "First Task");
                          ("description", VStr "First Task");
                          ("completed", VBool false)];
                    VObj [("id", VStr "2"); ("title", VStr "Second Task");
                          ("description", VStr "Second Task");
                          ("completed", VBool true)]])];
       VObj [("userId", VStr "2");
             ("tasks",
              VArr [VObj [("id", VStr "3"); ("title", VStr "Third Task");
                          ("description", VStr "Third Task");
                          ("completed", VBool true)]])];
       VObj [("userId", VStr "3");
             ("tasks",
              VArr [VObj [("id", VStr "1"); ("title", VStr "First Task");
                          ("description", VStr "First Task");
                          ("completed", VBool false)]])]].
Proof.
  split; [| vm_compute; reflexivity].
  intros pairs taskTable res Hres. unfold Scenario.tasksByUserId in Hres.
  apply list_elem_of_In, in_map_iff in Hres as (g & <- & Hg).
  apply list_elem_of_In in Hg. unfold Scenario.groupBy in Hg.
  apply ScenarioFacts.groupBy_keys in Hg as [(row & Hrow & Hkey) | (g' & Hin & _)];
    [| inversion Hin].
  apply ScenarioFacts.innerJoin_rows in Hrow as (lrow & rrow & Hl & _ & _ & ->).
  apply list_elem_of_In, in_map_iff in Hl as (lnk & <- & Hl).
  apply in_map_iff in Hl as (p & <- & Hp).
  exists p. split; [now apply list_elem_of_In |].
  change (Scenario.column _ "userId") with (fst g). rewrite Hkey. reflexivity.
Qed.

(** The first row of the sample result is for a user with a link row. *)
Lemma users_with_their_tasks_witness :
  exists p, p ∈ [("1", "1"); ("1", "2"); ("2", "3"); ("3", "1")] /\
            Scenario.column
              [("userId", VStr "1");
               ("tasks",
                VArr [VObj [("id", VStr "1"); ("title", VStr "First Task");
                            ("description", VStr "First Task");
                            ("completed", VNum 0)];
                      VObj [("id", VStr "2"); ("title", VStr "Second Task");
                            ("description", VStr "Second Task");
                            ("completed", VNum 1)]])]
              "userId" = VStr (fst p).
Proof.
  apply (proj1 users_with_their_tasks
           [("1", "1"); ("1", "2"); ("2", "3"); ("3", "1")] Scenario.tasks).
  vm_compute. left.
Defined.

(** ** Where undefined results come from *)

(** A query without a selection and without a join is shaped into one
    [undefined] per group of rows. *)
Lemma groupRows_unselected `{E : Externals} schema (query : ResolvedQuery) (rows : list Row) :
  rq_columns query = None ->
  groupRows schema query [] rows
  = Return (map (fun _ => VUndefined) (groupsOf query rows)).
Proof.
  intros Hnone. cbn [groupRows]. unfold ownFields. rewrite Hnone.
  induction (groupsOf query rows) as [|g rest IH]; [reflexivity |].
  cbn [mapE map obind]. cbn [mapE map obind] in IH. now rewrite IH.
Qed.

(** [users.query()] on a table that holds one row: [first()] returns the
    [undefined] result and [maybeOne()] and [maybeFirst()] return [null]. *)
Lemma unselected_query_terminals :
  let E := Sample.externals [Sample.row [("_0.id", CInt 1)]] in
  let h := snd (@DatabaseTableQuery.create E ∅ Sample.schema "users") in
  fst (@DatabaseTableQuery.all E h 0) = Return (VArr [VUndefined]) /\
  fst (@DatabaseTableQuery.first E h 0) = Return VUndefined /\
  fst (@DatabaseTableQuery.one E h 0) = Return VUndefined /\
  fst (@DatabaseTableQuery.maybeOne E h 0) = Return VNull /\
  fst (@DatabaseTableQuery.maybeFirst E h 0) = Return VNull.
Proof. repeat split; vm_compute; reflexivity. Qed.

(** ** The sample chain *)

(** The sample queries are what the code resolves the builder chain into,
    and the statement it prepares is the left join of the link rows onto the
    users. *)
Lemma sample_resolution (kind : PipeKind) :
  resolveInternal Sample.schema (Sample.usersWithLinks kind) None 0
  = Return (Sample.usersQuery, [Sample.linksJoin kind]) /\
  st_sql (@prepare (Sample.externals []) (Sample.usersQuery, [Sample.linksJoin kind]))
  = "SELECT _0.task_id AS [_0.task_id], _0.user_id AS [_0.user_id], _1.* FROM (SELECT _1.id AS [_1.id], _1.name AS [_1.name] FROM users AS _1) AS _1 LEFT JOIN joinUsersTasks AS _0 ON _1.id == _0.user_id".
Proof. split; reflexivity. Qed.

(* ===================================================================== *)
(** * Resolution and lowering of a chain of pipes *)

Section Resolution.
Context `{E : Externals}.

Lemma aliasOfDepth_inj (i j : nat) : aliasOfDepth i = aliasOfDepth j -> i = j.
Proof.
  unfold aliasOfDepth. intros H. injection H as Heq.
  change (NilEmpty.string_of_uint (Nat.to_uint i)
          = NilEmpty.string_of_uint (Nat.to_uint j)) in Heq.
  apply DecimalNat.Unsigned.to_uint_inj.
  pose proof (NilEmpty.usu (Nat.to_uint i)) as Hi.
  pose proof (NilEmpty.usu (Nat.to_uint j)) as Hj.
  rewrite Heq in Hi. congruence.
Qed.

(** Induction along the pipes of a description. *)
Lemma Internal_chain_ind (P : Internal -> Prop) :
  (forall s t sel w l o, P (MkInternal s t sel w l o None)) ->
  (forall s t sel w l o k c j p,
      P p -> P (MkInternal s t sel w l o (Some (MkParent k c j p)))) ->
  forall q, P q.
Proof.
  intros H0 HS. fix IH 1. intros [s t sel w l o [[k c j p]|]].
  - apply HS, IH.
  - apply H0.
Qed.

Lemma last_cons {A} (l : list A) (a d : A) : List.last (a :: l) d = List.last l a.
Proof.
  revert a d. induction l as [|b rest IH]; intros a d; [reflexivity |].
  change (List.last (a :: b :: rest) d) with (List.last (b :: rest) d).
  now rewrite !IH.
Qed.

Lemma lastQuery_cons (base : ResolvedQuery) item joins :
  lastQuery base (item :: joins) = lastQuery (ji_query item) joins.
Proof. unfold lastQuery. cbn [map]. apply last_cons. Qed.

Lemma lastQuery_snoc (base : ResolvedQuery) joins item :
  lastQuery base (joins ++ [item]) = ji_query item.
Proof. unfold lastQuery. rewrite map_app. cbn [map]. apply last_last. Qed.

Lemma wired_snoc joins : forall (base : ResolvedQuery) item,
  wired base joins ->
  rj_currentCol (ji_join item) ∈ rq_joinColumns (lastQuery base joins) ->
  rj_joinCol (ji_join item) ∈ rq_joinColumns (ji_query item) ->
  wired base (joins ++ [item]).
Proof.
  induction joins as [|j rest IH]; intros base item Hw Hcur Hjoin.
  - cbn. auto.
  - destruct Hw as (H1 & H2 & H3). cbn [app wired]. split; [exact H1 |].
    split; [exact H2 |]. apply IH; [exact H3 | | exact Hjoin].
    now rewrite lastQuery_cons in Hcur.
Qed.

Lemma resolveInternal_spec schema (q : Internal) :
  forall pj d base joins,
    resolveInternal schema q pj d = Return (base, joins) ->
    map rq_tableAlias (base :: map ji_query joins)
      = map aliasOfDepth (rev (seq d (S (parents q)))) /\
    Forall2 resolves (chainOf q) (base :: map ji_query joins) /\
    Forall (fun rq => primaryColumnsOf schema (rq_table rq)
                      = Return (rq_primaryColumns rq))
           (base :: map ji_query joins) /\
    map ji_join joins = pipesOf q /\
    rq_joinColumns (lastQuery base joins)
      = filterNotNull [option_map p_joinCol (q_parent q); pj] /\
    rq_tableAlias (lastQuery base joins) = aliasOfDepth d /\
    wired base joins.
Proof.
  induction q as [s t sel w l o | s t sel w l o k c j p IH] using Internal_chain_ind;
    intros pj d base joins Hres; cbn [resolveInternal] in Hres.
  - destruct (primaryColumnsOf schema t) as [pcs|] eqn:Hp; [| discriminate].
    cbn in Hres. injection Hres as <- <-. cbn [map parents seq rev app chainOf pipesOf].
    split; [reflexivity |]. split.
    + constructor; [| constructor]. unfold resolves. cbn. tauto.
    + split; [constructor; [exact Hp | constructor] |]. split; [reflexivity |].
      split; [reflexivity |]. split; [reflexivity | exact I].
  - destruct (primaryColumnsOf schema t) as [pcs|] eqn:Hp; [| discriminate].
    cbn [obind] in Hres.
    destruct (resolveInternal schema p (Some c) (S d)) as [[ib ij]|] eqn:Hin;
      [| discriminate].
    cbn [obind fst snd] in Hres. injection Hres as <- <-.
    destruct (IH _ _ _ _ Hin) as (Hal & Hch & Hpk & Hjoins & Hlast & _ & Hw).
    rewrite !map_app. cbn [map parents chainOf pipesOf p_joinCol ji_query ji_join].
    split.
    { change (seq d (S (S (parents p)))) with (d :: seq (S d) (S (parents p))).
      cbn [rev]. rewrite !map_app. cbn [map rq_tableAlias].
      rewrite app_comm_cons. cbn [map] in Hal. now rewrite Hal. }
    split.
    { change (ib :: map ji_query ij ++ [?x]) with ((ib :: map ji_query ij) ++ [x]).
      apply Forall2_app; [exact Hch |]. constructor; [| constructor].
      unfold resolves. cbn. tauto. }
    split.
    { change (ib :: map ji_query ij ++ [?x]) with ((ib :: map ji_query ij) ++ [x]).
      apply Forall_app. split; [exact Hpk |]. constructor; [exact Hp | constructor]. }
    split; [now rewrite Hjoins |].
    split; [now rewrite lastQuery_snoc |].
    split; [now rewrite lastQuery_snoc |].
    apply wired_snoc; [exact Hw | |].
    + rewrite Hlast. cbn. destruct (option_map p_joinCol (q_parent p)); cbn;
        rewrite ?elem_of_cons; auto.
    + cbn. rewrite elem_of_cons. auto.
Qed.

Lemma resolveInternal_last schema (q : Internal) pj d base joins :
  resolveInternal schema q pj d = Return (base, joins) ->
  resolves q (lastQuery base joins).
Proof.
  destruct q as [s t sel w l o [[k c j p]|]]; cbn [resolveInternal];
    destruct (primaryColumnsOf schema t) as [pcs|]; try discriminate; cbn [obind].
  - destruct (resolveInternal schema p (Some c) (S d)) as [[ib ij]|];
      try discriminate; cbn [obind fst snd].
    intros [= <- <-]. rewrite lastQuery_snoc. unfold resolves. cbn. tauto.
  - intros [= <- <-]. unfold resolves, lastQuery. cbn. tauto.
Qed.

Lemma resolveInternal_defined schema (q : Internal) :
  forall pj d,
    Forall (fun x => is_Some (objGet schema (q_table x))) (chainOf q) ->
    exists r, resolveInternal schema q pj d = Return r.
Proof.
  induction q as [s t sel w l o | s t sel w l o k c j p IH] using Internal_chain_ind;
    intros pj d Hall; cbn [resolveInternal chainOf] in *.
  - apply Forall_cons in Hall as [[cols Hcols] _]. cbn in Hcols.
    unfold primaryColumnsOf. rewrite Hcols. cbn. eauto.
  - apply Forall_app in Hall as [Hp Hq].
    apply Forall_cons in Hq as [[cols Hcols] _]. cbn in Hcols.
    unfold primaryColumnsOf. rewrite Hcols. cbn [obind].
    destruct (IH (Some c) (S d) Hp) as [r ->]. cbn. eauto.
Qed.

Lemma resolveInternal_tables schema (q : Internal) :
  forall pj d r,
    resolveInternal schema q pj d = Return r ->
    Forall (fun x => is_Some (objGet schema (q_table x))) (chainOf q).
Proof.
  induction q as [s t sel w l o | s t sel w l o k c j p IH] using Internal_chain_ind;
    intros pj d r Hres; cbn [resolveInternal chainOf] in *;
    unfold primaryColumnsOf in Hres;
    destruct (objGet schema t) as [cols|] eqn:Hcols; try discriminate;
    cbn [obind] in Hres.
  - constructor; [cbn; rewrite Hcols; eauto | constructor].
  - destruct (resolveInternal schema p (Some c) (S d)) as [inner|] eqn:Hin;
      [| discriminate].
    apply Forall_app. split; [now apply (IH _ _ _ Hin) |].
    constructor; [cbn; rewrite Hcols; eauto | constructor].
Qed.

Lemma resolveInternal_error schema (q : Internal) :
  forall pj d e, resolveInternal schema q pj d = Throw e -> e = TypeErrorUndefined.
Proof.
  induction q as [s t sel w l o | s t sel w l o k c j p IH] using Internal_chain_ind;
    intros pj d e Hres; cbn [resolveInternal] in Hres;
    unfold primaryColumnsOf in Hres;
    destruct (objGet schema t) as [cols|]; cbn [obind] in Hres; try congruence.
  destruct (resolveInternal schema p (Some c) (S d)) as [inner|e'] eqn:Hin;
    cbn [obind] in Hres; [discriminate |].
  injection Hres as <-. now apply (IH _ _ _ Hin).
Qed.

(** X1: what a chain of pipes resolves to.  There is one join per pipe.
    The queries come in the order the tables were piped, the receiver's
    last; their aliases are [_(d+n)] down to [_d], so the receiver's is
    [_d] and no two are the same; every resolved query carries the
    selection, where record, order, limit and offset of its own description
    and the primary-key columns of its own table, and every join the kind
    and the two columns of its pipe. *)
Theorem resolved_chain schema (q : Internal) (pj : option string) (d : nat)
    (base : ResolvedQuery) (joins : list ResolvedJoinItem) :
  resolveInternal schema q pj d = Return (base, joins) ->
  length joins = parents q /\
  map rq_tableAlias (base :: map ji_query joins)
    = map aliasOfDepth (rev (seq d (S (parents q)))) /\
  NoDup (map rq_tableAlias (base :: map ji_query joins)) /\
  rq_tableAlias (lastQuery base joins) = aliasOfDepth d /\
  Forall2 resolves (chainOf q) (base :: map ji_query joins) /\
  Forall (fun rq => primaryColumnsOf schema (rq_table rq)
                    = Return (rq_primaryColumns rq))
         (base :: map ji_query joins) /\
  map ji_join joins = pipesOf q.
Proof.
  intros Hres.
  destruct (resolveInternal_spec _ _ _ _ _ _ Hres)
    as (Hal & Hch & Hpk & Hjoins & _ & Hlast & _).
  split.
  { apply (f_equal (@length _)) in Hal.
    rewrite !length_map, length_rev, length_seq in Hal. cbn in Hal.
    rewrite length_map in Hal. lia. }
  split; [exact Hal |]. split; [| tauto].
  rewrite Hal. apply NoDup_ListNoDup, Finite.Injective_map_NoDup.
  - intros i j. apply aliasOfDepth_inj.
  - apply NoDup_rev, seq_NoDup.
Qed.

(** X2: resolution succeeds exactly when the schema has every table of the
    chain, and a missing table of any description of the chain shows as the
    [TypeError] of reading [undefined], never as the "Table not found" of
    [getColumnSchema]. *)
Theorem resolution_needs_every_table schema (q : Internal) (pj : option string)
    (d : nat) :
  ((exists r, resolveInternal schema q pj d = Return r)
   <-> Forall (fun x => is_Some (objGet schema (q_table x))) (chainOf q)) /\
  (forall e, resolveInternal schema q pj d = Throw e -> e = TypeErrorUndefined).
Proof.
  split; [split |].
  - intros [r Hr]. now apply (resolveInternal_tables _ _ _ _ _ Hr).
  - apply resolveInternal_defined.
  - apply resolveInternal_error.
Qed.

End Resolution.

(** The users and their links: two queries, [_1] then [_0]. *)
Lemma resolved_chain_witness :
  length [Sample.linksJoin many] = 1 /\
  NoDup (map rq_tableAlias [Sample.usersQuery; Sample.linksQuery]).
Proof.
  destruct (@resolved_chain (Sample.externals []) Sample.schema
              (Sample.usersWithLinks many) None 0 Sample.usersQuery
              [Sample.linksJoin many] eq_refl) as (Hlen & _ & Hnd & _).
  split; [exact Hlen | exact Hnd].
Defined.

Section Lowering.
Context `{E : Externals}.

Lemma lowerJoin_step m (prev : ResolvedQuery) node item :
  lowerJoin (m, prev, node) item
  = (snd (resolvedQueryToSelect m (ji_query item)
            (Some {| ja_join := ji_join item; ja_query := prev; ja_select := node |})),
     ji_query item,
     fst (resolvedQueryToSelect m (ji_query item)
            (Some {| ja_join := ji_join item; ja_query := prev; ja_select := node |}))).
Proof. reflexivity. Qed.

Lemma joinColumn_own (rq : ResolvedQuery) (col : string) :
  col ∈ rq_joinColumns rq -> col ∈ ownColumns rq.
Proof.
  intros Hcol. unfold ownColumns. apply dedupe_elem. rewrite !elem_of_app. auto.
Qed.

Lemma lowerJoin_fromTables joins :
  forall m prev node,
    fromTables (snd (fold_left lowerJoin joins (m, prev, node)))
    = fromTables node
      ++ map (fun rq => (rq_table rq, rq_tableAlias rq)) (map ji_query joins).
Proof.
  induction joins as [|item rest IH]; intros m prev node; cbn [fold_left map].
  - now rewrite app_nil_r.
  - rewrite lowerJoin_step, IH. cbn [fst resolvedQueryToSelect fromTables createFrom
      ja_select]. now rewrite <- app_assoc.
Qed.

Lemma placed_select m (rq : ResolvedQuery) (join : option JoinArg) :
  placed rq (fst (resolvedQueryToSelect m rq join)).
Proof.
  unfold placed, resolvedQueryToSelect.
  cbn [fst sel_limit sel_orderBy sel_where fromTables].
  split; [reflexivity |]. split; [reflexivity |]. split; [eauto |].
  destruct join as [j|]; cbn [createFrom]; [apply last_last | reflexivity].
Qed.

Lemma lowerJoin_levels joins :
  forall m prev node,
    exists news,
      levels (snd (fold_left lowerJoin joins (m, prev, node))) = levels node ++ news /\
      Forall2 placed (map ji_query joins) news.
Proof.
  induction joins as [|item rest IH]; intros m prev node; cbn [fold_left map].
  - exists []. split; [now rewrite app_nil_r | constructor].
  - rewrite lowerJoin_step.
    set (j := {| ja_join := ji_join item; ja_query := prev; ja_select := node |}).
    destruct (IH (snd (resolvedQueryToSelect m (ji_query item) (Some j)))
                (ji_query item)
                (fst (resolvedQueryToSelect m (ji_query item) (Some j))))
      as (news & Hlev & Hpl).
    exists (fst (resolvedQueryToSelect m (ji_query item) (Some j)) :: news).
    split.
    + rewrite Hlev. unfold resolvedQueryToSelect at 1.
      cbn [fst levels createFrom ja_select]. now rewrite <- app_assoc.
    + constructor; [apply placed_select | exact Hpl].
Qed.

Lemma lowerJoin_onScoped joins :
  forall m (prev : ResolvedQuery) node,
    onScoped node ->
    (forall col, col ∈ rq_joinColumns prev ->
                 dotCol (rq_tableAlias prev) col ∈ outputNames node) ->
    wired prev joins ->
    onScoped (snd (fold_left lowerJoin joins (m, prev, node))).
Proof.
  induction joins as [|item rest IH]; intros m prev node Hnode Hcols Hw;
    cbn [fold_left]; [exact Hnode |].
  destruct Hw as (Hcur & Hjoin & Hrest).
  rewrite lowerJoin_step.
  set (j := {| ja_join := ji_join item; ja_query := prev; ja_select := node |}).
  apply IH; [| | exact Hrest].
  - pose proof (outputNames_own m (ji_query item) (Some j) _
                  (joinColumn_own _ _ Hjoin)) as Hright.
    unfold resolvedQueryToSelect in *. cbn [fst] in *.
    cbn [onScoped createFrom ja_select ja_query ja_join j].
    split; [now apply Hcols |]. split; [exact Hright | exact Hnode].
  - intros col Hcol. apply outputNames_own. now apply joinColumn_own.
Qed.

(** X3: the FROM clauses of the lowered query scan the tables of the
    resolved queries once each, in order and under their aliases; for the
    resolution of a description these are the tables of the chain, a table
    piped to itself included, and no alias is used twice. *)
Theorem lowered_tables (r : Resolved) :
  fromTables (fst (lowerResolved r))
  = map (fun rq => (rq_table rq, rq_tableAlias rq)) (fst r :: map ji_query (snd r)) /\
  forall schema (q : Internal) pj d,
    resolveInternal schema q pj d = Return r ->
    map fst (fromTables (fst (lowerResolved r))) = map q_table (chainOf q) /\
    NoDup (map snd (fromTables (fst (lowerResolved r)))).
Proof.
  assert (Hfrom : fromTables (fst (lowerResolved r))
                  = map (fun rq => (rq_table rq, rq_tableAlias rq))
                        (fst r :: map ji_query (snd r))).
  { destruct r as [base joins]. unfold lowerResolved. cbn [fst snd].
    pose proof (lowerJoin_fromTables joins (snd (resolvedQueryToSelect [] base None))
                  base (fst (resolvedQueryToSelect [] base None))) as Hfold.
    destruct (fold_left lowerJoin joins _) as [[m' prev'] node'].
    cbn [fst snd] in *. rewrite Hfold. reflexivity. }
  split; [exact Hfrom |].
  intros schema q pj d Hres. destruct r as [base joins].
  destruct (resolveInternal_spec _ _ _ _ _ _ Hres) as (Hal & Hch & _).
  rewrite Hfrom. cbn [fst snd]. rewrite !map_map. split.
  - change (map (fun x => fst (rq_table x, rq_tableAlias x)) (base :: map ji_query joins))
      with (map rq_table (base :: map ji_query joins)).
    clear Hal Hres Hfrom. induction Hch as [|x rq xs rqs Hx _ IH]; [reflexivity |].
    cbn [map]. destruct Hx as (-> & _). now rewrite IH.
  - change (map (fun x => snd (rq_table x, rq_tableAlias x)) (base :: map ji_query joins))
      with (map rq_tableAlias (base :: map ji_query joins)).
    rewrite Hal. apply NoDup_ListNoDup, Finite.Injective_map_NoDup.
    + intros i j. apply aliasOfDepth_inj.
    + apply NoDup_rev, seq_NoDup.
Qed.

(** X4: every join condition of the lowered query of a description names
    columns that are fetched: the column of the previous query among the
    columns of the joined sub-select, the column of the joined table among
    the columns of the select itself.  This is what the join columns of a
    resolved query are for. *)
Theorem join_conditions_are_fetched schema (q : Internal) (pj : option string)
    (d : nat) (r : Resolved) :
  resolveInternal schema q pj d = Return r ->
  wired (fst r) (snd r) /\ onScoped (fst (lowerResolved r)).
Proof.
  intros Hres. destruct r as [base joins].
  destruct (resolveInternal_spec _ _ _ _ _ _ Hres) as (_ & _ & _ & _ & _ & _ & Hw).
  split; [exact Hw |]. unfold lowerResolved. cbn [fst snd].
  pose proof (lowerJoin_onScoped joins (snd (resolvedQueryToSelect [] base None))
                base (fst (resolvedQueryToSelect [] base None))) as Hfold.
  destruct (fold_left lowerJoin joins _) as [[m' prev'] node'].
  cbn [fst snd] in *. apply Hfold; [exact I | | exact Hw].
  intros col Hcol. apply (outputNames_own [] base None). now apply joinColumn_own.
Qed.

(** X5: the lowered query has one select per resolved query, nested in
    their order, and each select holds the clauses of its own query: the
    limit and offset, the order and the where record of a description piped
    from stay on the sub-select of its table and do not reach the selects
    around it.  A limit-less offset is dropped, and so is an empty order. *)
Theorem clauses_stay_at_their_level (r : Resolved) :
  Forall2 placed (fst r :: map ji_query (snd r)) (levels (fst (lowerResolved r))) /\
  (forall offset, createLimit None offset = None) /\
  (forall tableAlias, createOrderBy (Some []) tableAlias = None).
Proof.
  split; [| split; reflexivity].
  destruct r as [base joins]. unfold lowerResolved. cbn [fst snd].
  destruct (lowerJoin_levels joins (snd (resolvedQueryToSelect [] base None))
              base (fst (resolvedQueryToSelect [] base None))) as (news & Hlev & Hpl).
  destruct (fold_left lowerJoin joins _) as [[m' prev'] node'].
  cbn [fst snd] in *. rewrite Hlev.
  unfold resolvedQueryToSelect at 1. cbn [fst levels createFrom].
  constructor; [apply (placed_select [] base None) | exact Hpl].
Qed.

Lemma lowerJoin_top joins :
  forall m (prev : ResolvedQuery) node,
    placed prev node ->
    placed (lastQuery prev joins) (snd (fold_left lowerJoin joins (m, prev, node))).
Proof.
  induction joins as [|item rest IH]; intros m prev node Hnode; cbn [fold_left].
  - exact Hnode.
  - rewrite lowerJoin_step, lastQuery_cons. apply IH, placed_select.
Qed.

Lemma lowerResolved_top (r : Resolved) :
  placed (lastQuery (fst r) (snd r)) (fst (lowerResolved r)).
Proof.
  destruct r as [base joins]. unfold lowerResolved. cbn [fst snd].
  pose proof (lowerJoin_top joins (snd (resolvedQueryToSelect [] base None)) base
                (fst (resolvedQueryToSelect [] base None))
                (placed_select [] base None)) as Htop.
  destruct (fold_left lowerJoin joins _) as [[m' prev'] node']. exact Htop.
Qed.

(** X15: the select on top of the lowered query is the receiver's.  Its
    limit and offset and its order are those of the description that is
    resolved, under the alias [_0], and its FROM ends with the table of that
    description; the order given to [orderBy], in either of its two forms,
    is never empty, so that it always reaches the statement, with [Asc] for
    a column given without a direction. *)
Theorem receiver_clauses_are_on_top schema (q : Internal) (r : Resolved) :
  resolveInternal schema q None 0 = Return r ->
  sel_limit (fst (lowerResolved r))
  = createLimit (match q_limit q with Some l => ls_limit l | None => None end)
                (match q_limit q with Some l => ls_offset l | None => None end) /\
  sel_orderBy (fst (lowerResolved r)) = createOrderBy (q_orderBy q) "_0" /\
  List.last (fromTables (fst (lowerResolved r))) ("", "") = (q_table q, "_0") /\
  (forall args,
      q_orderBy q = Some (DatabaseTableQuery.orderByTerms args) ->
      sel_orderBy (fst (lowerResolved r))
      = Some (map (fun t => {| ot_expr := Column "_0" (fst t); ot_direction := snd t |})
                  (DatabaseTableQuery.orderByTerms args))) /\
  (forall column,
      DatabaseTableQuery.orderByTerms (DatabaseTableQuery.ByColumn column None)
      = [(column, Asc)]).
Proof.
  intros Hres. destruct r as [base joins].
  pose proof (resolveInternal_last _ _ _ _ _ _ Hres) as (Ht & _ & _ & Ho & Hl & Hoff).
  destruct (resolveInternal_spec _ _ _ _ _ _ Hres) as (_ & _ & _ & _ & _ & Halias & _).
  destruct (lowerResolved_top (base, joins)) as (Hlim & Hord & _ & Hfrom).
  cbn [fst snd] in *. rewrite Halias, Ho in Hord.
  rewrite Hl, Hoff in Hlim. rewrite Ht, Halias in Hfrom.
  split; [exact Hlim |]. split; [exact Hord |]. split; [exact Hfrom |].
  split; [| reflexivity].
  intros args Hargs. rewrite Hord, Hargs. unfold createOrderBy.
  now destruct args as [column direction | arg1 [|arg2 others]].
Qed.

End Lowering.

(** The users and their links again: the join is on [_1.id] and
    [_0.user_id], and both are fetched. *)
Lemma join_conditions_are_fetched_witness :
  onScoped (fst (@lowerResolved (Sample.externals [])
                   (Sample.usersQuery, [Sample.linksJoin many]))).
Proof.
  apply (@join_conditions_are_fetched (Sample.externals []) Sample.schema
           (Sample.usersWithLinks many) None 0
           (Sample.usersQuery, [Sample.linksJoin many]) eq_refl).
Defined.

(* ===================================================================== *)
(** * Grouping and shaping of the fetched rows *)


Lemma foldE_total {A S} (f : S -> A -> outcome S) (xs : list A) (s : S) :
  (forall s0 x, x ∈ xs -> exists s', f s0 x = Return s') ->
  exists s', foldE f xs s = Return s'.
Proof.
  revert s. induction xs as [|x rest IH]; intros s Hall; cbn; [eauto |].
  destruct (Hall s x) as (s' & ->); [left |]. cbn.
  apply IH. intros s0 x' Hin. apply Hall. now right.
Qed.

Lemma foldE_Throw {A S} (f : S -> A -> outcome S) (xs : list A) (s : S) (e : error) :
  foldE f xs s = Throw e -> exists s0 x, x ∈ xs /\ f s0 x = Throw e.
Proof.
  revert s. induction xs as [|x rest IH]; intros s H; cbn in H; [discriminate |].
  destruct (f s x) as [s'|e'] eqn:Hf; cbn in H.
  - destruct (IH _ H) as (s0 & x' & Hin & Hx'). exists s0, x'. split; [now right | exact Hx'].
  - injection H as <-. exists s, x. split; [left | exact Hf].
Qed.

Lemma mapE_Throw {A B} (f : A -> outcome B) (xs : list A) (e : error) :
  mapE f xs = Throw e -> exists x, x ∈ xs /\ f x = Throw e.
Proof.
  induction xs as [|x rest IH]; intros H; cbn in H; [discriminate |].
  destruct (f x) as [y|e'] eqn:Hf; cbn in H.
  - destruct (mapE f rest) as [ys|e'']; cbn in H; [discriminate |].
    injection H as <-. destruct (IH eq_refl) as (x' & Hin & Hx').
    exists x'. split; [now right | exact Hx'].
  - injection H as <-. exists x. split; [left | exact Hf].
Qed.

Lemma filter_none {A} (P : A -> Prop) `{forall x, Decision (P x)} (l : list A) :
  (forall x, x ∈ l -> ~ P x) -> filter P l = [].
Proof.
  induction l as [|x rest IH]; intros Hall; [reflexivity |].
  rewrite filter_cons_False by (apply Hall; left).
  apply IH. intros y Hy. apply Hall. now right.
Qed.

Section Grouping.
Context `{E : Externals}.

Lemma hasNullKey_rowKeys (query : ResolvedQuery) (row : Row) :
  hasNullKey query row = includesNull (rowKeys query row).
Proof. reflexivity. Qed.

Lemma pushed_keys keys row gs : map g_keys (map (pushed keys row) gs) = map g_keys gs.
Proof.
  rewrite map_map. apply map_ext. intros g. unfold pushed.
  now destruct (decide (g_keys g = keys)).
Qed.

Lemma pushed_other keys row gs :
  keys ∉ map g_keys gs -> map (pushed keys row) gs = gs.
Proof.
  induction gs as [|g rest IH]; intros Hnot; [reflexivity |].
  cbn [map] in *. rewrite not_elem_of_cons in Hnot. destruct Hnot as [Hg Hrest].
  rewrite (IH Hrest). unfold pushed at 1.
  destruct (decide (g_keys g = keys)); [congruence | reflexivity].
Qed.

Lemma pushToGroup_spec keys row gs :
  NoDup (map g_keys gs) ->
  match pushToGroup keys row gs with
  | Some gs' => gs' = map (pushed keys row) gs /\ keys ∈ map g_keys gs
  | None => keys ∉ map g_keys gs
  end.
Proof.
  induction gs as [|g rest IH]; intros Hnd; cbn [pushToGroup map].
  - apply not_elem_of_nil.
  - apply NoDup_cons in Hnd as [Hg Hrest]. unfold arrayEqual.
    destruct (bool_decide_reflect (g_keys g = keys)) as [Heq | Hne].
    + split; [| rewrite Heq; left].
      rewrite pushed_other by now rewrite <- Heq.
      unfold pushed. now rewrite decide_True by exact Heq.
    + specialize (IH Hrest). destruct (pushToGroup keys row rest) as [rest'|].
      * destruct IH as [-> Hin]. split; [| now right].
        unfold pushed at 2. now rewrite decide_False by exact Hne.
      * rewrite not_elem_of_cons. auto.
Qed.

Lemma grouped_addRow (query : ResolvedQuery) rows gs row :
  grouped query rows gs ->
  grouped query (rows ++ [row])
    (addRow (map (dotCol (rq_tableAlias query)) (rq_primaryColumns query)) gs row).
Proof.
  intros (Hnd & Hgs & Hall). unfold addRow.
  change (map (fun col => row !! col)
            (map (dotCol (rq_tableAlias query)) (rq_primaryColumns query)))
    with (rowKeys query row).
  destruct (includesNull (rowKeys query row)) eqn:Hnull.
  - split; [exact Hnd |]. split.
    + eapply Forall_impl; [exact Hgs |]. intros g (Hk & Hne & Hrows).
      split; [exact Hk |]. split; [exact Hne |].
      rewrite filter_app, filter_cons_False, filter_nil, app_nil_r; [exact Hrows |].
      intros Heq. rewrite Heq in Hnull. congruence.
    + intros row' Hin Hrow'. apply elem_of_app in Hin as [Hin | Hin]; [now apply Hall |].
      apply list_elem_of_singleton in Hin as ->.
      rewrite hasNullKey_rowKeys in Hrow'. congruence.
  - pose proof (pushToGroup_spec (rowKeys query row) row gs Hnd) as Hpush.
    destruct (pushToGroup (rowKeys query row) row gs) as [gs'|].
    + destruct Hpush as [-> Hin]. split; [now rewrite pushed_keys |]. split.
      * apply Forall_forall. intros g' Hg'. apply list_elem_of_In in Hg'.
        apply in_map_iff in Hg' as (g & <- & Hg). apply list_elem_of_In in Hg.
        rewrite Forall_forall in Hgs. destruct (Hgs g Hg) as (Hk & Hne & Hrows).
        unfold pushed. destruct (decide (g_keys g = rowKeys query row)) as [Heq | Hneq];
          cbn [g_keys g_rows].
        -- split; [exact Hk |]. split; [now destruct (g_rows g) |].
           now rewrite filter_app, filter_cons_True, filter_nil, <- Hrows.
        -- split; [exact Hk |]. split; [exact Hne |].
           rewrite filter_app, filter_cons_False, filter_nil, app_nil_r;
             [exact Hrows | congruence].
      * intros row' Hin' Hrow'. rewrite pushed_keys.
        apply elem_of_app in Hin' as [Hin' | Hin']; [now apply Hall |].
        now apply list_elem_of_singleton in Hin' as ->.
    + split; [| split].
      * rewrite map_app. cbn [map g_keys]. apply NoDup_app. split; [exact Hnd |].
        split; [| apply NoDup_singleton].
        intros k Hk Hk'. apply list_elem_of_singleton in Hk' as ->. contradiction.
      * apply Forall_app. split.
        -- apply Forall_forall. intros g Hg.
           rewrite Forall_forall in Hgs. destruct (Hgs g Hg) as (Hk & Hne & Hrows).
           split; [exact Hk |]. split; [exact Hne |].
           rewrite filter_app, filter_cons_False, filter_nil, app_nil_r;
             [exact Hrows |].
           intros Heq. apply Hpush. rewrite Heq. apply list_elem_of_In, in_map.
           now apply list_elem_of_In.
        -- constructor; [| constructor]. cbn [g_keys g_rows].
           split; [exact Hnull |]. split; [discriminate |].
           rewrite filter_app, filter_cons_True, filter_nil by reflexivity.
           replace (filter (fun row0 => rowKeys query row0 = rowKeys query row) rows)
             with (@nil Row); [reflexivity |].
           symmetry. apply filter_none. intros row' Hin' Heq. apply Hpush.
           rewrite <- Heq. apply Hall; [exact Hin' |].
           rewrite hasNullKey_rowKeys, Heq. exact Hnull.
      * intros row' Hin' Hrow'. rewrite map_app. apply elem_of_app.
        apply elem_of_app in Hin' as [Hin' | Hin']; [left; now apply Hall |].
        apply list_elem_of_singleton in Hin' as ->. right. cbn. left.
Qed.

Lemma grouped_groupsOf (query : ResolvedQuery) (rows : list Row) :
  grouped query rows (groupsOf query rows).
Proof.
  induction rows as [|row rest IH] using rev_ind.
  - split; [constructor |]. split; [constructor |]. intros row Hin.
    now apply elem_of_nil in Hin.
  - unfold groupsOf. rewrite fold_left_app. cbn [fold_left].
    now apply grouped_addRow.
Qed.

Lemma length_pushToGroup keys row gs gs' :
  pushToGroup keys row gs = Some gs' -> length gs' = length gs.
Proof.
  revert gs'. induction gs as [|g rest IH]; intros gs' H; cbn in H; [discriminate |].
  destruct (arrayEqual (g_keys g) keys); [now injection H as <- |].
  destruct (pushToGroup keys row rest) as [rest'|]; [| discriminate].
  injection H as <-. cbn. now rewrite (IH _ eq_refl).
Qed.

Lemma length_fold_addRow colsKey (rows : list Row) (acc : list Group) :
  length (fold_left (addRow colsKey) rows acc) <= length acc + length rows.
Proof.
  revert acc. induction rows as [|row rest IH]; intros acc; cbn [fold_left length];
    [lia |].
  etransitivity; [apply IH |].
  assert (length (addRow colsKey acc row) <= S (length acc)); [| lia].
  unfold addRow. destruct (includesNull _); [lia |].
  destruct (pushToGroup _ row acc) as [gs'|] eqn:Hpush.
  - rewrite (length_pushToGroup _ _ _ _ Hpush). lia.
  - rewrite length_app. cbn. lia.
Qed.

(** X6: how [groupRows] groups the fetched rows.  No two groups have the
    same keys and no group has a null key; a group holds exactly the rows
    that have its keys, in the order they were fetched, and is never empty;
    every row without a null key is in a group; there are at most as many
    groups as rows. *)
Theorem groups_partition_the_rows (query : ResolvedQuery) (rows : list Row) :
  let groups := groupsOf query rows in
  NoDup (map g_keys groups) /\
  Forall (fun g => includesNull (g_keys g) = false /\
                   g_rows g <> [] /\
                   g_rows g = filter (fun row => rowKeys query row = g_keys g) rows)
         groups /\
  (forall row, row ∈ rows -> hasNullKey query row = false ->
               rowKeys query row ∈ map g_keys groups) /\
  length groups <= length rows.
Proof.
  intros groups. destruct (grouped_groupsOf query rows) as (Hnd & Hgs & Hall).
  split; [exact Hnd |]. split; [exact Hgs |]. split; [exact Hall |].
  subst groups. unfold groupsOf. etransitivity; [apply length_fold_addRow |].
  cbn. lia.
Qed.

Lemma group_nonempty (query : ResolvedQuery) (rows : list Row) (g : Group) :
  g ∈ groupsOf query rows -> exists row0 rest, g_rows g = row0 :: rest.
Proof.
  intros Hg. destruct (grouped_groupsOf query rows) as (_ & Hgs & _).
  rewrite Forall_forall in Hgs. destruct (Hgs g Hg) as (_ & Hne & _).
  destruct (g_rows g) as [|row0 rest]; [congruence | eauto].
Qed.

(** *** The fields of a result *)

Lemma objGet_objSet_eq (fields : list (string * value)) (k : string) (v : value) :
  objGet (objSet fields k v) k = Some v.
Proof.
  induction fields as [|[k' old] rest IH]; cbn.
  - now rewrite String.eqb_refl.
  - destruct (String.eqb k' k) eqn:Hk; cbn; rewrite Hk; [reflexivity | exact IH].
Qed.

Lemma objGet_objSet_ne (fields : list (string * value)) (k k' : string) (v : value) :
  k' <> k -> objGet (objSet fields k v) k' = objGet fields k'.
Proof.
  intros Hne. induction fields as [|[k0 old] rest IH]; cbn.
  - destruct (String.eqb_spec k k'); [congruence | reflexivity].
  - destruct (String.eqb_spec k0 k) as [-> | Hk0]; cbn.
    + destruct (String.eqb_spec k k'); [congruence | reflexivity].
    + destruct (String.eqb_spec k0 k'); [reflexivity | exact IH].
Qed.

Lemma ownFields_step_total schema (query : ResolvedQuery) (group : Group)
    (result : list (string * value)) (col : string) row0 rest :
  g_rows group = row0 :: rest ->
  (exists c, getColumnSchema schema (rq_table query) col = Return c) ->
  (forall c v, exists x, parseColumn c v = Return x) ->
  exists result',
    (try colSchema <~ getColumnSchema schema (rq_table query) col in
     try row0 <~ match g_rows group with
                 | r :: _ => Return r
                 | [] => Throw TypeErrorUndefined
                 end in
     try parsed <~ parseColumn colSchema (row0 !! dotCol (rq_tableAlias query) col) in
     Return (objSet result col parsed)) = Return result'.
Proof.
  intros Hrows [c ->] Hparse. rewrite Hrows. cbn.
  destruct (Hparse c (row0 !! dotCol (rq_tableAlias query) col)) as [x ->]. cbn. eauto.
Qed.

Lemma ownFields_total schema (query : ResolvedQuery) (group : Group) row0 rest :
  g_rows group = row0 :: rest ->
  Forall (fun col => exists c, getColumnSchema schema (rq_table query) col = Return c)
         (default [] (rq_columns query)) ->
  (forall c v, exists x, parseColumn c v = Return x) ->
  exists result, ownFields schema query group = Return result.
Proof.
  intros Hrows Hcols Hparse. unfold ownFields.
  destruct (rq_columns query) as [cols|]; [| eauto]. cbn [default] in Hcols.
  apply foldE_total. intros s0 col Hcol.
  rewrite Forall_forall in Hcols.
  exact (ownFields_step_total schema query group s0 col row0 rest Hrows
           (Hcols col Hcol) Hparse).
Qed.

Lemma groupRows_total schema (joins : list ResolvedJoinItem) :
  forall (query : ResolvedQuery) (rows : list Row),
    (forall c v, exists x, parseColumn c v = Return x) ->
    Forall (fun rq =>
              Forall (fun col => exists c, getColumnSchema schema (rq_table rq) col
                                           = Return c)
                     (default [] (rq_columns rq)))
           (query :: map ji_query joins) ->
    Forall (fun item => rj_kind (ji_join item) = many \/
                        rj_kind (ji_join item) = maybeFirst) joins ->
    exists results,
      groupRows schema query joins rows = Return results /\
      length results = length (groupsOf query rows).
Proof.
  induction joins as [|join nextJoins IH]; intros query rows Hparse Hcols Hkinds;
    rewrite groupRows_groups; apply mapE_total; intros g Hg;
    destruct (group_nonempty _ _ _ Hg) as (row0 & rest & Hrows);
    apply Forall_cons in Hcols as [Hq Hnext];
    destruct (ownFields_total schema query g row0 rest Hrows Hq Hparse) as [result ->];
    cbn [obind].
  - destruct (rq_columns query); eauto.
  - apply Forall_cons in Hkinds as [Hkind Hkinds]. cbn [map] in Hnext.
    destruct (IH (ji_query join) (g_rows g) Hparse Hnext Hkinds) as (joinResult & -> & _).
    cbn [obind]. destruct Hkind as [-> | ->]; cbn; eauto.
Qed.

(** X7: result building cannot fail on the shape of the data when every
    join is of kind [many] or [maybeFirst].  If the schema has the selected
    columns and [parseColumn] accepts what the driver returns, [groupRows]
    returns, whatever the fetched rows are, one result per group of the
    first query. *)
Theorem lenient_joins_never_raise schema (query : ResolvedQuery)
    (joins : list ResolvedJoinItem) (rows : list Row) :
  (forall c v, exists x, parseColumn c v = Return x) ->
  Forall (fun rq =>
            Forall (fun col => exists c, getColumnSchema schema (rq_table rq) col
                                         = Return c)
                   (default [] (rq_columns rq)))
         (query :: map ji_query joins) ->
  Forall (fun item => rj_kind (ji_join item) = many \/
                      rj_kind (ji_join item) = maybeFirst) joins ->
  exists results,
    groupRows schema query joins rows = Return results /\
    length results = length (groupsOf query rows).
Proof. apply groupRows_total. Qed.


Lemma ownFields_fold schema (query : ResolvedQuery) (group : Group) (cols : list string) :
  forall acc result,
    foldE (fun result col =>
             try colSchema <~ getColumnSchema schema (rq_table query) col in
             try row0 <~ match g_rows group with
                         | r :: _ => Return r
                         | [] => Throw TypeErrorUndefined
                         end in
             try parsed <~ parseColumn colSchema
                             (row0 !! dotCol (rq_tableAlias query) col) in
             Return (objSet result col parsed)) cols acc = Return result ->
    (forall k, k ∉ cols -> objGet result k = objGet acc k) /\
    (forall col, col ∈ cols ->
       exists c row0 parsed,
         head (g_rows group) = Some row0 /\
         getColumnSchema schema (rq_table query) col = Return c /\
         parseColumn c (row0 !! dotCol (rq_tableAlias query) col) = Return parsed /\
         objGet result col = Some parsed).
Proof.
  induction cols as [|col rest IH]; intros acc result Hfold; cbn [foldE] in Hfold.
  - injection Hfold as <-. split; [reflexivity |]. intros col Hin.
    now apply elem_of_nil in Hin.
  - apply obind_Return in Hfold as (acc' & Hstep & Hfold).
    apply obind_Return in Hstep as (c & Hc & Hstep).
    apply obind_Return in Hstep as (row0 & Hrow0 & Hstep).
    apply obind_Return in Hstep as (parsed & Hparsed & Hstep).
    injection Hstep as <-.
    destruct (IH _ _ Hfold) as (Hother & Hmine). split.
    + intros k Hk. rewrite not_elem_of_cons in Hk. destruct Hk as [Hne Hk].
      rewrite (Hother k Hk). now apply objGet_objSet_ne.
    + intros col' Hin. destruct (decide (col' ∈ rest)) as [Hrest | Hrest];
        [now apply Hmine |].
      apply elem_of_cons in Hin as [-> | Hin]; [| contradiction].
      exists c, row0, parsed.
      split; [destruct (g_rows group); [discriminate | cbn; congruence] |].
      split; [exact Hc |]. split; [exact Hparsed |].
      rewrite (Hother col Hrest). apply objGet_objSet_eq.
Qed.

(** X9: the fields of a result are the selected columns and nothing else,
    and each is [parseColumn] of the cell that the first row of the group
    has for it under the alias of the query; the later rows of a group are
    not read for the columns of the query itself. *)
Theorem fields_come_from_the_first_row schema (query : ResolvedQuery) (group : Group)
    (cols : list string) (result : list (string * value)) :
  rq_columns query = Some cols ->
  ownFields schema query group = Return result ->
  (forall k, k ∉ cols -> objGet result k = None) /\
  (forall col, col ∈ cols ->
     exists c row0 parsed,
       head (g_rows group) = Some row0 /\
       getColumnSchema schema (rq_table query) col = Return c /\
       parseColumn c (row0 !! dotCol (rq_tableAlias query) col) = Return parsed /\
       objGet result col = Some parsed).
Proof.
  intros Hcols Hown. unfold ownFields in Hown. rewrite Hcols in Hown.
  destruct (ownFields_fold _ _ _ _ _ _ Hown) as (Hother & Hmine).
  split; [| exact Hmine]. intros k Hk. now rewrite (Hother k Hk).
Qed.

(** X10: what a join adds to the result of a group.  When the query has a
    selection, the content of the join is stored under the name of the
    joined table: every other field is left as it was, and a selected
    column of that same name is overwritten.  Content that is [undefined]
    is not stored.  Without a selection the content takes the place of the
    result. *)
Theorem joined_content_field (query : ResolvedQuery) (joinName : string)
    (result : list (string * value)) (joinContent : value) :
  (rq_columns query = None ->
   mergeJoin query joinName result joinContent = joinContent) /\
  (rq_columns query <> None ->
   exists fields,
     mergeJoin query joinName result joinContent = VObj fields /\
     (forall k, k <> joinName -> objGet fields k = objGet result k) /\
     objGet fields joinName
     = match joinContent with
       | VUndefined => objGet result joinName
       | _ => Some joinContent
       end).
Proof.
  unfold mergeJoin. split.
  - now intros ->.
  - intros Hsel. destruct (rq_columns query) as [cols|]; [| congruence].
    destruct joinContent;
      try (eexists; split; [reflexivity |]; split;
           [intros k Hk; now apply objGet_objSet_ne | apply objGet_objSet_eq]).
    exists result. auto.
Qed.

End Grouping.

(** The users with their links, all of them shaped. *)
Lemma lenient_joins_never_raise_witness :
  exists results,
    @groupRows (Sample.externals []) Sample.schema Sample.usersQuery
      [Sample.linksJoin many] Sample.leftJoinRows = Return results /\
    length results = 4.
Proof.
  destruct (@lenient_joins_never_raise (Sample.externals []) Sample.schema
              Sample.usersQuery [Sample.linksJoin many] Sample.leftJoinRows)
    as (results & Hres & Hlen).
  - intros c v. eexists. reflexivity.
  - repeat constructor; eexists; reflexivity.
  - repeat constructor.
  - exists results. split; [exact Hres | exact Hlen].
Defined.


(** John Doe, fetched twice: his name is read off the first of the rows. *)
Lemma fields_come_from_the_first_row_witness :
  exists c row0 parsed,
    head [Sample.userRow 1 "John Doe" (CInt 1, CInt 1);
          Sample.userRow 1 "John Doe" (CInt 1, CInt 2)] = Some row0 /\
    @getColumnSchema (Sample.externals []) Sample.schema "users" "name" = Return c /\
    @parseColumn (Sample.externals []) c (row0 !! "_1.name") = Return parsed /\
    objGet [("id", VNum 1); ("name", VStr "John Doe")] "name" = Some parsed.
Proof.
  apply (proj2 (@fields_come_from_the_first_row (Sample.externals []) Sample.schema
                  Sample.usersQuery
                  {| g_keys := [Some (CInt 1)];
                     g_rows := [Sample.userRow 1 "John Doe" (CInt 1, CInt 1);
                                Sample.userRow 1 "John Doe" (CInt 1, CInt 2)] |}
                  ["id"; "name"] [("id", VNum 1); ("name", VStr "John Doe")]
                  eq_refl eq_refl) "name").
  right. left.
Defined.

(* ===================================================================== *)
(** * The caches of the query objects *)

Section Caches.
Context `{E : Externals}.
Import DatabaseTableQuery.

Lemma coherent_empty : coherent ∅.
Proof. intros ref o Hlook. now rewrite lookup_empty in Hlook. Qed.

Lemma coherent_new (h : Heap) (internal : Internal) :
  coherent h -> coherent (snd (new h internal)).
Proof.
  intros Hh ref o Hlook. cbn in Hlook.
  apply lookup_insert_Some in Hlook as [[_ <-] | [_ Hlook]]; [| now apply (Hh ref)].
  split; cbn; discriminate.
Qed.

Lemma runBuilder_Some (h : Heap) (this : nat) (b : Builder) ref h' :
  runBuilder h this b = Some (ref, h') ->
  exists o, h !! this = Some o /\ (ref, h') = new h (built (priv o) b).
Proof.
  intros Hrun. destruct (h !! this) as [o|] eqn:Hthis.
  - exists o. split; [reflexivity |].
    rewrite (runBuilder_new h this o b Hthis) in Hrun. congruence.
  - destruct b as [selection | w | n offset | args | [] c t j]; cbn in Hrun;
      unfold select, where_, limit, orderBy, pipe, pipeOne, pipeMaybeOne, pipeFirst,
        pipeMaybeFirst, pipeInternal in Hrun; rewrite Hthis in Hrun; discriminate.
Qed.

Lemma coherent_getResolved (h : Heap) (this : nat) :
  coherent h -> coherent (snd (getResolved h this)).
Proof.
  intros Hh. unfold getResolved.
  destruct (h !! this) as [o|] eqn:Hthis; [| exact Hh].
  destruct (resolved o) as [r0|] eqn:Hres; [exact Hh |].
  destruct (resolveInternal _ _ _ _) as [r|e] eqn:Hr; [| exact Hh].
  cbn [snd]. intros ref o' Hlook.
  apply lookup_insert_Some in Hlook as [[_ <-] | [_ Hlook]]; [| now apply (Hh ref)].
  split; cbn.
  - now intros r1 [= <-].
  - intros st Hst. destruct (Hh this o Hthis) as [_ Hprep].
    destruct (Hprep st Hst) as (r1 & Hr1 & _). congruence.
Qed.

Lemma coherent_getPreparedStatement (h : Heap) (this : nat) :
  coherent h -> coherent (snd (getPreparedStatement h this)).
Proof.
  intros Hh. unfold getPreparedStatement.
  destruct (h !! this) as [o|] eqn:Hthis; [| exact Hh].
  destruct (preparedStatement o) as [st0|] eqn:Hst; [exact Hh |].
  pose proof (coherent_getResolved h this Hh) as Hh1.
  destruct (getResolved h this) as [[r|e] h1] eqn:Hres; cbn [snd] in *; [| exact Hh1].
  destruct (getResolved_cached _ _ _ _ Hres) as (o1 & Ho1 & Hr1 & _).
  intros ref o' Hlook.
  destruct (decide (ref = this)) as [-> | Hne].
  - rewrite lookup_alter_eq, Ho1 in Hlook. cbn in Hlook. injection Hlook as <-.
    destruct (Hh1 this o1 Ho1) as [Hresolve _]. split; cbn.
    + exact Hresolve.
    + intros st [= <-]. eauto.
  - rewrite lookup_alter_ne in Hlook by congruence. now apply (Hh1 ref).
Qed.

Lemma snd_buildResult (h : Heap) (this : nat) (rows : list Row) :
  snd (buildResult h this rows) = snd (getResolved h this).
Proof.
  unfold buildResult. destruct (getResolved h this) as [[r|e] h1]; [| reflexivity].
  now destruct (h1 !! this).
Qed.


Lemma getResolved_value (h : Heap) (this : nat) (o : Object) :
  coherent h -> h !! this = Some o ->
  fst (getResolved h this) = resolveInternal (q_schema (priv o)) (priv o) None 0.
Proof.
  intros Hh Hthis. unfold getResolved. rewrite Hthis.
  destruct (resolved o) as [r|] eqn:Hres.
  - destruct (Hh this o Hthis) as [Hresolve _]. now rewrite (Hresolve r Hres).
  - now destruct (resolveInternal _ _ _ _).
Qed.

Lemma getPreparedStatement_value (h : Heap) (this : nat) (o : Object) :
  coherent h -> h !! this = Some o ->
  fst (getPreparedStatement h this)
  = (try r <~ resolveInternal (q_schema (priv o)) (priv o) None 0 in
     Return (prepare r)).
Proof.
  intros Hh Hthis. unfold getPreparedStatement. rewrite Hthis.
  destruct (preparedStatement o) as [st|] eqn:Hst.
  - destruct (Hh this o Hthis) as [Hresolve Hprep].
    destruct (Hprep st Hst) as (r & Hr & ->). now rewrite (Hresolve r Hr).
  - pose proof (getResolved_value h this o Hh Hthis) as Hval.
    destruct (getResolved h this) as [[r|e] h1]; cbn [fst] in *; now rewrite <- Hval.
Qed.


(** *** Errors that cannot happen *)

Lemma ownFields_error schema (query : ResolvedQuery) (group : Group) (e : error) :
  is_Some (objGet schema (rq_table query)) ->
  (forall c v t, parseColumn c v <> Throw (TableNotFound t)) ->
  ownFields schema query group = Throw e ->
  forall t, e <> TableNotFound t.
Proof.
  intros [columns Htable] Hparse Hown t. unfold ownFields in Hown.
  destruct (rq_columns query) as [cols|]; [| discriminate].
  apply foldE_Throw in Hown as (s0 & col & _ & Hstep).
  unfold getColumnSchema in Hstep. rewrite Htable in Hstep.
  destruct (objGet columns col) as [c|]; cbn [obind] in Hstep; [| congruence].
  destruct (g_rows group) as [|row0 rest]; cbn [obind] in Hstep; [congruence |].
  destruct (parseColumn c (row0 !! dotCol (rq_tableAlias query) col)) as [x|e'] eqn:Hp;
    cbn [obind] in Hstep; [discriminate |].
  injection Hstep as <-. intros ->. now apply (Hparse _ _ _ Hp).
Qed.

Lemma transformJoin_error (results : list value) (kind : PipeKind) (e : error) :
  transformJoin results kind = Throw e ->
  e = NoResultSingleJoin \/ e = MultipleResultsSingleJoin.
Proof.
  destruct kind; cbn; intros H;
    repeat match type of H with
           | context [if ?b then _ else _] => destruct b
           end; try discriminate; injection H as <-; auto.
Qed.

Lemma groupRows_error schema (joins : list ResolvedJoinItem) :
  forall (query : ResolvedQuery) (rows : list Row) (e : error),
    Forall (fun rq => is_Some (objGet schema (rq_table rq)))
           (query :: map ji_query joins) ->
    (forall c v t, parseColumn c v <> Throw (TableNotFound t)) ->
    groupRows schema query joins rows = Throw e ->
    forall t, e <> TableNotFound t.
Proof.
  induction joins as [|join nextJoins IH]; intros query rows e Htables Hparse Hrows t;
    rewrite groupRows_groups in Hrows;
    apply mapE_Throw in Hrows as (g & _ & Hg);
    apply Forall_cons in Htables as [Hq Hnext];
    destruct (ownFields schema query g) as [result|e'] eqn:Hown; cbn [obind] in Hg;
    try (injection Hg as <-; now apply (ownFields_error _ _ _ _ Hq Hparse Hown)).
  - destruct (rq_columns query); discriminate.
  - cbn [map] in Hnext.
    destruct (groupRows schema (ji_query join) nextJoins (g_rows g))
      as [joinResult|e'] eqn:Hjoin; cbn [obind] in Hg.
    + destruct (transformJoin joinResult (rj_kind (ji_join join)))
        as [joinContent|e'] eqn:Hkind; cbn [obind] in Hg; [discriminate |].
      injection Hg as <-. apply transformJoin_error in Hkind as [-> | ->]; discriminate.
    + injection Hg as <-. now apply (IH _ _ _ Hnext Hparse Hjoin).
Qed.

Lemma resolved_tables schema (q : Internal) pj d (r : Resolved) :
  resolveInternal schema q pj d = Return r ->
  Forall (fun rq => is_Some (objGet schema (rq_table rq)))
         (fst r :: map ji_query (snd r)).
Proof.
  intros Hres. destruct r as [base joins].
  destruct (resolveInternal_spec _ _ _ _ _ _ Hres) as (_ & _ & Hpk & _).
  eapply Forall_impl; [exact Hpk |]. intros rq Hrq. cbn beta in Hrq.
  unfold primaryColumnsOf in Hrq.
  destruct (objGet schema (rq_table rq)); [eauto | discriminate].
Qed.

Lemma getResolved_error (h : Heap) (this : nat) (e : error) (h1 : Heap) :
  coherent h -> getResolved h this = (Throw e, h1) -> e = TypeErrorUndefined.
Proof.
  intros Hh Hres. destruct (h !! this) as [o|] eqn:Hthis.
  - pose proof (getResolved_value h this o Hh Hthis) as Hval.
    rewrite Hres in Hval. cbn in Hval. symmetry in Hval.
    now apply resolveInternal_error in Hval.
  - unfold getResolved in Hres. rewrite Hthis in Hres. congruence.
Qed.

Lemma getPreparedStatement_error (h : Heap) (this : nat) (e : error) (h1 : Heap) :
  coherent h -> getPreparedStatement h this = (Throw e, h1) -> e = TypeErrorUndefined.
Proof.
  intros Hh Hst. destruct (h !! this) as [o|] eqn:Hthis.
  - pose proof (getPreparedStatement_value h this o Hh Hthis) as Hval.
    rewrite Hst in Hval. cbn [fst] in Hval.
    destruct (resolveInternal (q_schema (priv o)) (priv o) None 0) as [r|e'] eqn:Hr;
      cbn in Hval; [discriminate |].
    injection Hval as ->. now apply resolveInternal_error in Hr.
  - unfold getPreparedStatement in Hst. rewrite Hthis in Hst. congruence.
Qed.

Lemma buildResult_error (h : Heap) (this : nat) (rows : list Row) (e : error) :
  coherent h ->
  (forall c v t, parseColumn c v <> Throw (TableNotFound t)) ->
  fst (buildResult h this rows) = Throw e ->
  forall t, e <> TableNotFound t.
Proof.
  intros Hh Hparse Hbuild t. unfold buildResult in Hbuild.
  pose proof (coherent_getResolved h this Hh) as Hh1.
  destruct (getResolved h this) as [[r|e'] h1] eqn:Hres; cbn [fst snd] in *.
  - destruct (getResolved_cached _ _ _ _ Hres) as (o1 & Ho1 & Hr1 & _).
    rewrite Ho1 in Hbuild. cbn [fst] in Hbuild.
    destruct (Hh1 this o1 Ho1) as [Hresolve _].
    apply (groupRows_error _ _ _ _ _ (resolved_tables _ _ _ _ _ (Hresolve r Hr1))
             Hparse Hbuild).
  - injection Hbuild as <-. now rewrite (getResolved_error _ _ _ _ Hh Hres).
Qed.

(** X12: [getColumnSchema] never gets to say "Table not found" when
    results are built by a query object.  The tables of the plan are
    resolved before the first row is shaped, which fails with a [TypeError]
    when the schema lacks one of them, so that provided [parseColumn] does
    not raise that error itself, neither [buildResult] nor the body shared
    by the terminal methods raises it. *)
Theorem table_not_found_is_unreachable (h : Heap) (this : nat) (rows : list Row)
    (e : error) :
  coherent h ->
  (forall c v t, parseColumn c v <> Throw (TableNotFound t)) ->
  fst (buildResult h this rows) = Throw e \/ fst (results h this) = Throw e ->
  forall t, e <> TableNotFound t.
Proof.
  intros Hh Hparse [Hbuild | Hresults] t.
  - now apply (buildResult_error h this rows e Hh Hparse Hbuild).
  - unfold results in Hresults.
    pose proof (coherent_getPreparedStatement h this Hh) as Hh1.
    destruct (getPreparedStatement h this) as [[st|e'] h1] eqn:Hst; cbn [fst snd] in *.
    + now apply (buildResult_error h1 this _ e Hh1 Hparse Hresults).
    + injection Hresults as <-.
      now rewrite (getPreparedStatement_error _ _ _ _ Hh Hst).
Qed.

(** *** What the terminal methods write *)

Lemma cachesOnly_refl (this : nat) (h : Heap) : cachesOnly this h h.
Proof. split; auto. Qed.

Lemma cachesOnly_trans (this : nat) (h1 h2 h3 : Heap) :
  cachesOnly this h1 h2 -> cachesOnly this h2 h3 -> cachesOnly this h1 h3.
Proof.
  intros [Ho1 Ht1] [Ho2 Ht2]. split.
  - intros ref Hne. now rewrite Ho2, Ho1.
  - now rewrite Ht2, Ht1.
Qed.

Lemma getResolved_cachesOnly (h : Heap) (this : nat) :
  cachesOnly this h (snd (getResolved h this)).
Proof.
  unfold getResolved. destruct (h !! this) as [o|] eqn:Hthis; [| apply cachesOnly_refl].
  destruct (resolved o); [apply cachesOnly_refl |].
  destruct (resolveInternal _ _ _ _); [| apply cachesOnly_refl].
  cbn [snd]. split.
  - intros ref Hne. now rewrite lookup_insert_ne by congruence.
  - now rewrite lookup_insert_eq, Hthis.
Qed.

Lemma getPreparedStatement_cachesOnly (h : Heap) (this : nat) :
  cachesOnly this h (snd (getPreparedStatement h this)).
Proof.
  unfold getPreparedStatement.
  destruct (h !! this) as [o|] eqn:Hthis; [| apply cachesOnly_refl].
  destruct (preparedStatement o); [apply cachesOnly_refl |].
  pose proof (getResolved_cachesOnly h this) as Hres.
  destruct (getResolved h this) as [[r|e] h1]; cbn [snd] in *; [| exact Hres].
  apply (cachesOnly_trans this h h1); [exact Hres |]. split.
  - intros ref Hne. now rewrite lookup_alter_ne by congruence.
  - rewrite lookup_alter_eq. now destruct (h1 !! this).
Qed.

Lemma results_cachesOnly (h : Heap) (this : nat) :
  cachesOnly this h (snd (results h this)).
Proof.
  unfold results. pose proof (getPreparedStatement_cachesOnly h this) as Hst.
  destruct (getPreparedStatement h this) as [[st|e] h1]; cbn [snd] in *; [| exact Hst].
  rewrite snd_buildResult.
  apply (cachesOnly_trans this h h1); [exact Hst | apply getResolved_cachesOnly].
Qed.

(** X13: what running a query leaves behind.  The five terminal methods
    leave the same heap; in it every other object is what it was, caches
    included, and the receiver has the description it had: only the two
    caches of the receiver can have been written. *)
Theorem terminal_methods_write_only_their_caches (h : Heap) (this : nat) :
  cachesOnly this h (snd (all h this)) /\
  snd (one h this) = snd (all h this) /\
  snd (maybeOne h this) = snd (all h this) /\
  snd (first h this) = snd (all h this) /\
  snd (maybeFirst h this) = snd (all h this).
Proof.
  split; [apply results_cachesOnly |]. repeat split.
Qed.

(** *** Builder calls in either order *)

Lemma built_commute (q : Internal) (b1 b2 : Builder) (f1 f2 : Field) :
  writes b1 = Some f1 -> writes b2 = Some f2 -> f1 <> f2 ->
  built (built q b1) b2 = built (built q b2) b1.
Proof.
  destruct q, b1, b2; cbn; intros [= <-] [= <-] Hne; congruence.
Qed.

Lemma built_last (q : Internal) (b1 b2 : Builder) (f : Field) :
  writes b1 = Some f -> writes b2 = Some f -> built (built q b1) b2 = built q b2.
Proof.
  destruct q, b1, b2; cbn; intros [= <-] [=]; reflexivity.
Qed.

Lemma runBuilder_twice (h h1 h12 : Heap) (this r1 r12 : nat) (o : Object)
    (b1 b2 : Builder) :
  h !! this = Some o ->
  runBuilder h this b1 = Some (r1, h1) ->
  runBuilder h1 r1 b2 = Some (r12, h12) ->
  h12 !! r12 = Some (pristine (built (built (priv o) b1) b2)).
Proof.
  intros Hthis Hrun1 Hrun2.
  assert (Hr1 : h1 !! r1 = Some (pristine (built (priv o) b1))).
  { rewrite (runBuilder_new h this o b1 Hthis) in Hrun1. injection Hrun1 as <- <-.
    apply new_lookup. }
  rewrite (runBuilder_new h1 r1 _ b2 Hr1) in Hrun2. injection Hrun2 as <- <-.
  apply new_lookup.
Qed.

(** X14: builder calls that write different fields of the description can
    be made in either order: [select], [where], [limit] and [orderBy] lead
    to objects that are the same, caches and all, and that therefore emit
    the same statement and plan.  Of two calls that write the same field the
    later one decides. *)
Theorem builders_commute (h : Heap) (this : nat) (b1 b2 : Builder) (f1 f2 : Field)
    (r1 r12 r2 r21 : nat) (h1 h12 h2 h21 : Heap) :
  writes b1 = Some f1 -> writes b2 = Some f2 -> f1 <> f2 ->
  runBuilder h this b1 = Some (r1, h1) -> runBuilder h1 r1 b2 = Some (r12, h12) ->
  runBuilder h this b2 = Some (r2, h2) -> runBuilder h2 r2 b1 = Some (r21, h21) ->
  h12 !! r12 = h21 !! r21 /\
  fst (emission h12 r12) = fst (emission h21 r21) /\
  (forall q b b', writes b = writes b' -> writes b <> None ->
                  built (built q b) b' = built q b').
Proof.
  intros Hw1 Hw2 Hne H1 H12 H2 H21.
  destruct (runBuilder_Some _ _ _ _ _ H1) as (o & Hthis & _).
  pose proof (runBuilder_twice _ _ _ _ _ _ _ _ _ Hthis H1 H12) as Hleft.
  pose proof (runBuilder_twice _ _ _ _ _ _ _ _ _ Hthis H2 H21) as Hright.
  rewrite (built_commute _ _ _ _ _ Hw2 Hw1) in Hright by congruence.
  split; [now rewrite Hleft, Hright |]. split.
  - now rewrite (emission_pristine _ _ _ Hleft), (emission_pristine _ _ _ Hright).
  - intros q b b' Hsame Hsome. destruct (writes b) as [f|] eqn:Hb; [| congruence].
    now apply (built_last q b b' f).
Qed.

End Caches.


(** Selecting a column the users do not have: the error names the column. *)
Lemma table_not_found_is_unreachable_witness :
  ColumnNotFound "nope" "users" <> TableNotFound "users".
Proof.
  apply (@table_not_found_is_unreachable (Sample.externals [])
           (snd (DatabaseTableQuery.new ∅
                   (MkInternal Sample.schema "users" (Some ["nope"]) None None None None)))
           0 [Sample.row [("_0.id", CInt 1)]] (ColumnNotFound "nope" "users")).
  - apply coherent_new, coherent_empty.
  - intros c v t. discriminate.
  - left. vm_compute. reflexivity.
Defined.

(** [select] then [limit], and [limit] then [select], on a fresh [users]
    query. *)
Lemma builders_commute_witness :
  let q := MkInternal Sample.schema "users" None None None None None in
  let sel := DatabaseTableQuery.BSelect ["id"] in
  let lim := DatabaseTableQuery.BLimit (Some 10%Z) None in
  let n0 := @DatabaseTableQuery.new (Sample.externals []) ∅ q in
  let n1 := DatabaseTableQuery.new (snd n0) (DatabaseTableQuery.built q sel) in
  let n12 := DatabaseTableQuery.new (snd n1)
               (DatabaseTableQuery.built (DatabaseTableQuery.built q sel) lim) in
  let n2 := DatabaseTableQuery.new (snd n0) (DatabaseTableQuery.built q lim) in
  let n21 := DatabaseTableQuery.new (snd n2)
               (DatabaseTableQuery.built (DatabaseTableQuery.built q lim) sel) in
  snd n12 !! fst n12 = snd n21 !! fst n21.
Proof.
  intros q sel lim n0 n1 n12 n2 n21.
  apply (@builders_commute (Sample.externals []) (snd n0) 0 sel lim
           FSelection FLimit (fst n1) (fst n12) (fst n2) (fst n21)
           (snd n1) (snd n12) (snd n2) (snd n21));
    try reflexivity; try discriminate.
Defined.

(** The first ten users by name. *)
Lemma receiver_clauses_are_on_top_witness :
  let q := MkInternal Sample.schema "users" None None
             (Some {| ls_limit := Some 10%Z; ls_offset := None |})
             (Some (DatabaseTableQuery.orderByTerms
                      (DatabaseTableQuery.ByColumn "name" None))) None in
  let r := ({| rq_table := "users"; rq_tableAlias := "_0"; rq_limit := Some 10%Z;
               rq_offset := None; rq_columns := None; rq_joinColumns := [];
               rq_primaryColumns := ["id"]; rq_where := None;
               rq_orderBy := Some [("name", Asc)] |}, []) in
  @resolveInternal (Sample.externals []) Sample.schema q None 0 = Return r /\
  sel_orderBy (fst (@lowerResolved (Sample.externals []) r))
  = Some [{| ot_expr := Column "_0" "name"; ot_direction := Asc |}].
Proof.
  intros q r.
  assert (Hres : @resolveInternal (Sample.externals []) Sample.schema q None 0 = Return r)
    by (vm_compute; reflexivity).
  split; [exact Hres |].
  destruct (@receiver_clauses_are_on_top (Sample.externals []) Sample.schema q r Hres)
    as (_ & _ & _ & Hord & _).
  apply (Hord (DatabaseTableQuery.ByColumn "name" None)). reflexivity.
Defined.

(* ===================================================================== *)
(** * The statement caches of [DatabaseTable] *)

Section DatabaseTableFacts.
Import DatabaseTable.

(** X16: [DatabaseTable] creates each of its statements once.  When
    [getStatement] has returned a statement for a key, the later calls for
    that key return the same statement and do not touch the cache, whatever
    [create] they are given; no call touches the slot of another key; a
    [create] that returns [null] leaves the slot empty, so that the next
    call creates again.  [getIndexStatement] does the same by index name. *)
Theorem statements_are_created_once (cache : QueriesCache)
    (indexCache : gmap string Statement) :
  (forall name create1 create2 st,
      fst (getStatement cache name create1) = Some st ->
      getStatement (snd (getStatement cache name create1)) name create2
      = (Some st, snd (getStatement cache name create1))) /\
  (forall name create1 other,
      other <> name -> snd (getStatement cache name create1) other = cache other) /\
  (forall name create1 create2,
      cache name = None -> create1 tt = None ->
      fst (getStatement (snd (getStatement cache name create1)) name create2)
      = create2 tt) /\
  (forall name create1 create2,
      getIndexStatement (snd (getIndexStatement indexCache name create1)) name create2
      = getIndexStatement indexCache name create1) /\
  (forall name create1 other,
      other <> name ->
      snd (getIndexStatement indexCache name create1) !! other = indexCache !! other).
Proof.
  split; [| split; [| split; [| split]]].
  - intros name create1 create2 st. unfold getStatement at 1 3 4.
    destruct (cache name) as [st0|] eqn:Hslot; cbn [fst snd].
    + intros [= <-]. unfold getStatement. now rewrite Hslot.
    + intros Hst. unfold getStatement. cbn beta. now rewrite Hslot, Hst.
  - intros name create1 other Hne. unfold getStatement.
    destruct (cache name); cbn [snd]; [reflexivity |].
    now rewrite decide_False by exact Hne.
  - intros name create1 create2 Hslot Hnull. unfold getStatement at 2.
    rewrite Hslot. cbn [snd]. unfold getStatement. cbn beta.
    destruct (decide (name = name)) as [_ | Hne]; [| congruence].
    rewrite Hnull. cbn [fst].
    destruct (decide (name = name)) as [_ | Hne]; [reflexivity | congruence].
  - intros name create1 create2. unfold getIndexStatement at 2 3.
    destruct (indexCache !! name) as [current|] eqn:Hslot; cbn [snd].
    + unfold getIndexStatement. now rewrite Hslot.
    + unfold getIndexStatement. now rewrite lookup_insert_eq.
  - intros name create1 other Hne. unfold getIndexStatement.
    destruct (indexCache !! name); cbn [snd]; [reflexivity |].
    now rewrite lookup_insert_ne by congruence.
Qed.

End DatabaseTableFacts.
